(** * Asteroids: the per-frame simulation core

    A shallow embedding of [src/utils/gameUtils.ts] (entity factory,
    motion integrator, collision resolver), of the data model of
    [src/types/game.ts] and of the per-frame updater of the [Game]
    component, followed by the properties the specification states
    about them.

    Modelling conventions.
    - A TypeScript [number] that holds a coordinate, a velocity, an angle
      or a radius is a real number: arithmetic is exact, [NaN] and the
      infinities do not exist, rounding is not modelled.
    - [score], [lives] and [lifespan] are only ever built from the integer
      literals [0], [3], [60] and changed by [+= 100], [--]: they are [Z].
    - The source updates objects in place and returns them; here every
      function returns the updated value and its argument is the value
      before the call.  The entities of one state are distinct objects,
      as [createShip], [createAsteroid] and [shoot] build them.
    - [Math.random()] draws from an explicit source that is threaded
      through the code in a state monad.
    - The calls on the canvas context are recorded as a trace; the
      context methods themselves do not throw. *)

From Stdlib Require Import Reals.Reals Lra Lia ZArith List Bool String.
From ExtLib Require Import Structures.Monad Data.Monads.StateMonad.
Import ListNotations.
Import MonadNotation.

Local Open Scope R_scope.
Local Open Scope monad_scope.

(** ** JavaScript numbers *)

Module Js.

(** Truncation toward zero, the integer quotient behind [%]. *)
Definition trunc (r : R) : Z :=
  if Rle_dec 0 r then Int_part r else (- Int_part (- r))%Z.

(** [a % b]: the remainder has the sign of the dividend [a].
    ([b = 0] gives [NaN] in JavaScript; the model is meaningful for
    [b <> 0] only.) *)
Definition rem (a b : R) : R := a - b * IZR (trunc (a / b)).

(** [Math.floor]. *)
Definition floor (r : R) : Z := Int_part r.

(** [Math.pow(x, n)] for a natural exponent. *)
Definition pow (x : R) (n : nat) : R := x ^ n.

(** [a < b] and [a > b] as the booleans the source branches on. *)
Definition ltb (a b : R) : bool := if Rlt_dec a b then true else false.
Definition gtb (a b : R) : bool := ltb b a.

End Js.

Infix "%%" := Js.rem (at level 40, left associativity) : R_scope.

(** ** The source of randomness

    The sequence of values the successive calls of [Math.random()] will
    return; a call takes the head and leaves the tail. *)

Definition Rng : Type := nat -> R.

Definition Rand : Type -> Type := state Rng.

Definition Math_random : Rand R :=
  mkState (fun g => (g 0%nat, fun n => g (S n))).

(** ** Data model ([src/types/game.ts]) *)

Record Point : Type := mkPoint { x : R; y : R }.

Record GameObject : Type := mkGameObject {
  position : Point;
  velocity : Point;
  rotation : R;
  size : R
}.

Record Asteroid : Type := mkAsteroid {
  asteroid_obj :> GameObject;
  vertices : list Point
}.

Record Ship : Type := mkShip {
  ship_obj :> GameObject;
  thrusting : bool
}.

Record Bullet : Type := mkBullet {
  bullet_obj :> GameObject;
  lifespan : Z
}.

Record GameState : Type := mkGameState {
  ship : Ship;
  asteroids : list Asteroid;
  bullets : list Bullet;
  score : Z;
  lives : Z;
  gameOver : bool
}.

(** ** Entity factory *)

Definition createShip (x y : R) : Ship :=
  {| ship_obj := {| position := {| x := x; y := y |};
                    velocity := {| x := 0; y := 0 |};
                    rotation := 0;
                    size := 20 |};
     thrusting := false |}.

(** The body of the [for] loop of [createAsteroid], from index [i] for
    [k] more iterations: one draw per vertex. *)
Fixpoint createVertices (size : R) (numVertices : Z) (i : nat) (k : nat)
  : Rand (list Point) :=
  match k with
  | O => ret []
  | S k' =>
      let angle := (INR i / IZR numVertices) * PI * 2 in
      r <- Math_random ;;
      let variance := r * 0.4 + 0.8 in
      let v := {| x := cos angle * size * variance;
                  y := sin angle * size * variance |} in
      vs <- createVertices size numVertices (S i) k' ;;
      ret (v :: vs)
  end.

Definition createAsteroid (canvasWidth canvasHeight : R) : Rand Asteroid :=
  r <- Math_random ;;
  let size := r * 30 + 20 in
  r <- Math_random ;;
  let numVertices := (Js.floor (r * 5) + 7)%Z in
  vertices <- createVertices size numVertices 0 (Z.to_nat numVertices) ;;
  px <- Math_random ;;
  py <- Math_random ;;
  vx <- Math_random ;;
  vy <- Math_random ;;
  rot <- Math_random ;;
  ret {| asteroid_obj :=
           {| position := {| x := px * canvasWidth; y := py * canvasHeight |};
              velocity := {| x := (vx - 0.5) * 2; y := (vy - 0.5) * 2 |};
              rotation := rot * PI * 2;
              size := size |};
         vertices := vertices |}.

(** [Array.from({ length: n }, () => c)]: [n] successive runs of [c]. *)
Fixpoint Array_from {A : Type} (n : nat) (c : Rand A) : Rand (list A) :=
  match n with
  | O => ret []
  | S n' => a <- c ;; l <- Array_from n' c ;; ret (a :: l)
  end.

(** ** Motion integrator ([updateGameObjects]) *)

(** The screen wrap of one axis, [(p + dimension) % dimension]. *)
Definition wrapAxis (p dimension : R) : R := (p + dimension) %% dimension.

(** The stages of the ship update, one per block of the source. *)

(** "Update ship": thrust along the heading while [thrusting]. *)
Definition applyThrust (ship : Ship) : Point :=
  let v := velocity ship in
  if thrusting ship then
    let thrustPower := 0.1 in
    {| x := x v + cos (rotation ship) * thrustPower;
       y := y v + sin (rotation ship) * thrustPower |}
  else v.

(** "Apply friction". *)
Definition applyFriction (v : Point) : Point :=
  let friction := 0.99 in
  {| x := x v * friction; y := y v * friction |}.

(** [Math.sqrt(v.x * v.x + v.y * v.y)]. *)
Definition speedOf (v : Point) : R := sqrt (x v * x v + y v * y v).

Definition maxSpeed : R := 5.

(** "Limit maximum speed". *)
Definition limitSpeed (v : Point) : Point :=
  let speed := speedOf v in
  if Js.gtb speed maxSpeed then
    let scale := maxSpeed / speed in
    {| x := x v * scale; y := y v * scale |}
  else v.

(** The ship part of [updateGameObjects]: the three velocity stages, then
    "Update position" and "Wrap around screen". *)
Definition updateShip (ship : Ship) (width height : R) : Ship :=
  let v := limitSpeed (applyFriction (applyThrust ship)) in
  let p := {| x := x (position ship) + x v; y := y (position ship) + y v |} in
  let p := {| x := wrapAxis (x p) width; y := wrapAxis (y p) height |} in
  {| ship_obj := {| position := p; velocity := v;
                    rotation := rotation ship; size := size ship |};
     thrusting := thrusting ship |}.

(** The callback of [asteroids.map]. *)
Definition updateAsteroid (width height : R) (asteroid : Asteroid) : Asteroid :=
  let p := {| x := x (position asteroid) + x (velocity asteroid);
              y := y (position asteroid) + y (velocity asteroid) |} in
  let p := {| x := wrapAxis (x p) width; y := wrapAxis (y p) height |} in
  {| asteroid_obj := {| position := p; velocity := velocity asteroid;
                        rotation := rotation asteroid + 0.02;
                        size := size asteroid |};
     vertices := vertices asteroid |}.

(** The callback of [bullets.map]. *)
Definition updateBullet (width height : R) (bullet : Bullet) : Bullet :=
  let p := {| x := x (position bullet) + x (velocity bullet);
              y := y (position bullet) + y (velocity bullet) |} in
  let p := {| x := wrapAxis (x p) width; y := wrapAxis (y p) height |} in
  {| bullet_obj := {| position := p; velocity := velocity bullet;
                      rotation := rotation bullet; size := size bullet |};
     lifespan := lifespan bullet - 1 |}.

Definition updateGameObjects (state : GameState) (width height : R) : GameState :=
  let updatedAsteroids := map (updateAsteroid width height) (asteroids state) in
  let updatedBullets :=
    filter (fun bullet => (lifespan bullet >? 0)%Z)
           (map (updateBullet width height) (bullets state)) in
  {| ship := updateShip (ship state) width height;
     asteroids := updatedAsteroids;
     bullets := updatedBullets;
     score := score state;
     lives := lives state;
     gameOver := gameOver state |}.

(** ** Collision resolver ([checkCollision], [handleCollisions]) *)

Definition checkCollision (obj1 : GameObject) (asteroid : Asteroid) : bool :=
  let distance :=
    sqrt (Js.pow (x (position obj1) - x (position asteroid)) 2 +
          Js.pow (y (position obj1) - y (position asteroid)) 2) in
  Js.ltb distance (size obj1 + size asteroid).

(** The three assignments of the [else] branch: the ship goes back to
    (400, 300), at rest, heading 0. *)
Definition resetShip (ship : Ship) : Ship :=
  {| ship_obj := {| position := {| x := 400; y := 300 |};
                    velocity := {| x := 0; y := 0 |};
                    rotation := 0;
                    size := size ship |};
     thrusting := thrusting ship |}.

(** [asteroids.filter] with its callback, which adds 100 to [newScore]
    for each asteroid it drops; the score is threaded through the
    traversal in array order. *)
Fixpoint filterAsteroids (bullets : list Bullet) (asteroids : list Asteroid)
    (newScore : Z) : list Asteroid * Z :=
  match asteroids with
  | [] => ([], newScore)
  | asteroid :: rest =>
      let hitByBullet := existsb (fun bullet : Bullet => checkCollision bullet asteroid) bullets in
      let newScore := if hitByBullet then (newScore + 100)%Z else newScore in
      let (kept, newScore) := filterAsteroids bullets rest newScore in
      (if negb hitByBullet then asteroid :: kept else kept, newScore)
  end.

Definition handleCollisions (state : GameState) : Rand GameState :=
  let ship0 := ship state in
  let hasCollision :=
    existsb (fun asteroid => checkCollision ship0 asteroid) (asteroids state) in
  let '(ship1, newLives, gameOver1) :=
    if hasCollision then
      let newLives := (lives state - 1)%Z in
      if (newLives <=? 0)%Z then (ship0, newLives, true)
      else (resetShip ship0, newLives, false)
    else (ship0, lives state, false) in
  let '(remainingAsteroids, newScore) :=
    filterAsteroids (bullets state) (asteroids state) (score state) in
  if (List.length remainingAsteroids =? 0)%nat then
    fresh <- Array_from 5 (createAsteroid 800 600) ;;
    ret {| ship := ship1; asteroids := fresh; bullets := bullets state;
           score := newScore; lives := newLives; gameOver := gameOver1 |}
  else
    ret {| ship := ship1; asteroids := remainingAsteroids;
           bullets := bullets state;
           score := newScore; lives := newLives; gameOver := gameOver1 |}.

(** ** Rendering ([drawGame])

    The calls made on the 2D context, in order.  Reading [x] of
    [asteroid.vertices[0]] throws a [TypeError] when the asteroid has no
    vertex; the calls made before are kept in the outcome. *)

Inductive Cmd : Type :=
| ctx_clearRect (cx cy w h : R)
| ctx_save
| ctx_restore
| ctx_translate (tx ty : R)
| ctx_rotate (angle : R)
| ctx_strokeStyle (colour : string)
| ctx_lineWidth (w : R)
| ctx_fillStyle (colour : string)
| ctx_beginPath
| ctx_moveTo (px py : R)
| ctx_lineTo (px py : R)
| ctx_closePath
| ctx_stroke
| ctx_arc (cx cy radius startAngle endAngle : R)
| ctx_fill.

Inductive Outcome : Type :=
| Done (trace : list Cmd)
| TypeError (trace : list Cmd).

(** "Draw ship" and "Draw thrust". *)
Definition drawShip (ship : Ship) : list Cmd :=
  [ctx_save;
   ctx_translate (x (position ship)) (y (position ship));
   ctx_rotate (rotation ship);
   ctx_strokeStyle "white";
   ctx_lineWidth 2;
   ctx_beginPath;
   ctx_moveTo 20 0;
   ctx_lineTo (-10) 10;
   ctx_lineTo (-10) (-10);
   ctx_closePath;
   ctx_stroke]
  ++ (if thrusting ship then
        [ctx_beginPath;
         ctx_moveTo (-10) 0;
         ctx_lineTo (-20) 5;
         ctx_lineTo (-20) (-5);
         ctx_closePath;
         ctx_stroke]
      else [])
  ++ [ctx_restore].

(** The callback of [asteroids.forEach]. *)
Definition drawAsteroid (asteroid : Asteroid) : Outcome :=
  let before :=
    [ctx_save;
     ctx_translate (x (position asteroid)) (y (position asteroid));
     ctx_rotate (rotation asteroid);
     ctx_strokeStyle "white";
     ctx_beginPath] in
  match vertices asteroid with
  | [] => TypeError before
  | v0 :: _ =>
      Done (before
            ++ [ctx_moveTo (x v0) (y v0)]
            ++ map (fun vertex => ctx_lineTo (x vertex) (y vertex)) (vertices asteroid)
            ++ [ctx_closePath; ctx_stroke; ctx_restore])
  end.

(** [asteroids.forEach]: the callbacks run in order until one throws. *)
Fixpoint drawAsteroids (asteroids : list Asteroid) : Outcome :=
  match asteroids with
  | [] => Done []
  | asteroid :: rest =>
      match drawAsteroid asteroid with
      | TypeError t => TypeError t
      | Done t =>
          match drawAsteroids rest with
          | TypeError t' => TypeError (t ++ t')
          | Done t' => Done (t ++ t')
          end
      end
  end.

(** The callback of [bullets.forEach]. *)
Definition drawBullet (bullet : Bullet) : list Cmd :=
  [ctx_beginPath;
   ctx_arc (x (position bullet)) (y (position bullet)) (size bullet) 0 (PI * 2);
   ctx_fill].

Definition drawGame (state : GameState) : Outcome :=
  match drawAsteroids (asteroids state) with
  | TypeError t => TypeError (drawShip (ship state) ++ t)
  | Done t =>
      Done (drawShip (ship state) ++ t
            ++ [ctx_fillStyle "white"]
            ++ flat_map drawBullet (bullets state))
  end.

(** The trace of an outcome, and whether it came to an end. *)
Definition traceOf (o : Outcome) : list Cmd :=
  match o with Done t => t | TypeError t => t end.

Definition completed (o : Outcome) : bool :=
  match o with Done _ => true | TypeError _ => false end.

(** The depth of the canvas state stack after the calls of a trace,
    from depth [d]; [None] when a [restore] finds the stack empty of
    the saves of this trace. *)
Fixpoint stackDepth (t : list Cmd) (d : nat) : option nat :=
  match t with
  | [] => Some d
  | ctx_save :: t' => stackDepth t' (S d)
  | ctx_restore :: t' =>
      match d with
      | O => None
      | S d' => stackDepth t' d'
      end
  | _ :: t' => stackDepth t' d
  end.

(** How many calls of a trace satisfy [f]. *)
Definition countCmd (f : Cmd -> bool) (t : list Cmd) : nat :=
  List.length (filter f t).

Definition isStroke (c : Cmd) : bool :=
  match c with ctx_stroke => true | _ => false end.

Definition isFill (c : Cmd) : bool :=
  match c with ctx_fill => true | _ => false end.

(** ** The per-frame updater of the [Game] component *)

Definition CANVAS_WIDTH : R := 800.
Definition CANVAS_HEIGHT : R := 600.
Definition ROTATION_SPEED : R := 0.1.

(** [keysRef.current]: the keys currently held, and [Set.has]. *)
Definition Keys : Type := list string.
Definition has (keys : Keys) (k : string) : bool := existsb (String.eqb k) keys.

(** The copy [newShip] of the previous ship with the rotation the held
    arrow keys give it and the [thrusting] flag of the up key. *)
Definition steerShip (keys : Keys) (deltaTime : R) (prevShip : Ship) : Ship :=
  let rot := rotation prevShip in
  let rot := if has keys "ArrowLeft" then rot - ROTATION_SPEED * deltaTime else rot in
  let rot := if has keys "ArrowRight" then rot + ROTATION_SPEED * deltaTime else rot in
  {| ship_obj := {| position := position prevShip; velocity := velocity prevShip;
                    rotation := rot; size := size prevShip |};
     thrusting := has keys "ArrowUp" |}.

(** The state the function passed to [setGameState] inside
    [useGameLoop] computes, [finalState]: from the previous state, the
    held keys and the frame's [deltaTime].  Collisions are resolved only
    when the previous state is not game over. *)
Definition updaterState (keys : Keys) (deltaTime : R) (prevState : GameState)
  : Rand GameState :=
  let newShip := steerShip keys deltaTime (ship prevState) in
  let updatedState :=
    updateGameObjects
      {| ship := newShip; asteroids := asteroids prevState;
         bullets := bullets prevState; score := score prevState;
         lives := lives prevState; gameOver := gameOver prevState |}
      CANVAS_WIDTH CANVAS_HEIGHT in
  if gameOver prevState then ret updatedState
  else handleCollisions updatedState.

(** What a call of that function comes to: it returns [finalState]
    after the calls [trace] on the canvas context, or it throws the
    [TypeError] of [drawGame] after the calls [trace] and returns no
    state. *)
Inductive Frame : Type :=
| Drawn (finalState : GameState) (trace : list Cmd)
| Thrown (trace : list Cmd).

(** "Draw": [ctx.clearRect], then [drawGame] on [finalState]. *)
Definition drawFrame (finalState : GameState) : Frame :=
  let clear := ctx_clearRect 0 0 CANVAS_WIDTH CANVAS_HEIGHT in
  match drawGame finalState with
  | Done t => Drawn finalState (clear :: t)
  | TypeError t => Thrown (clear :: t)
  end.

(** The function passed to [setGameState] inside [useGameLoop], for a
    frame in which the canvas and its context are there: it computes
    [finalState], draws it and returns it. *)
Definition gameLoopStep (keys : Keys) (deltaTime : R) (prevState : GameState)
  : Rand Frame :=
  finalState <- updaterState keys deltaTime prevState ;;
  ret (drawFrame finalState).

(** [shoot]: the bullet is built from the ship of the rendered state
    [gameState] and appended to the bullets of the latest state [prev];
    nothing happens once the game is over. *)
Definition shoot (gameState prev : GameState) : GameState :=
  if gameOver gameState then prev
  else
    let ship0 := ship gameState in
    let bullet :=
      {| bullet_obj := {| position := position ship0;
                          velocity := {| x := cos (rotation ship0) * 7;
                                         y := sin (rotation ship0) * 7 |};
                          rotation := 0;
                          size := 2 |};
         lifespan := 60 |} in
    {| ship := ship prev; asteroids := asteroids prev;
       bullets := bullets prev ++ [bullet];
       score := score prev; lives := lives prev; gameOver := gameOver prev |}.

(** [n] successive ticks of the integrator in a [width] x [height] arena. *)
Fixpoint ticks (n : nat) (width height : R) (state : GameState) : GameState :=
  match n with
  | O => state
  | S n' => ticks n' width height (updateGameObjects state width height)
  end.

(** ** Vocabulary of the properties *)

(** The state a call of [handleCollisions] returns, for a given source
    of randomness. *)
Definition resolve (state : GameState) (g : Rng) : GameState :=
  evalState (handleCollisions state) g.

(** What the per-frame updater comes to, for a given source of
    randomness. *)
Definition frame (keys : Keys) (deltaTime : R) (prevState : GameState) (g : Rng)
  : Frame :=
  evalState (gameLoopStep keys deltaTime prevState) g.

(** The state the per-frame updater computes. *)
Definition nextState (keys : Keys) (deltaTime : R) (prevState : GameState)
    (g : Rng) : GameState :=
  evalState (updaterState keys deltaTime prevState) g.

(** An object lies inside the arena. *)
Definition inArena (width height : R) (o : GameObject) : Prop :=
  0 <= x (position o) < width /\ 0 <= y (position o) < height.

(** The position an object reaches before the wrap, given the velocity
    [v] it moves with. *)
Definition preWrap (o : GameObject) (v : Point) : Point :=
  {| x := x (position o) + x v; y := y (position o) + y v |}.

(** The pre-wrap position is not more than one arena size below zero. *)
Definition oneWrapAway (width height : R) (p : Point) : Prop :=
  - width <= x p /\ - height <= y p.

(** Axis by axis: when the pre-wrap coordinate of [p] is at least minus
    the dimension, the coordinate of [after] lies inside the arena. *)
Definition wrapsInto (width height : R) (p : Point) (after : GameObject) : Prop :=
  (- width <= x p -> 0 <= x (position after) < width)
  /\ (- height <= y p -> 0 <= y (position after) < height).

(** The Euclidean distance of two points. *)
Definition euclid (p q : Point) : R :=
  sqrt (Rsqr (x p - x q) + Rsqr (y p - y q)).

(** Some bullet of [bullets] collides with [asteroid]. *)
Definition hitByBullet (bullets : list Bullet) (asteroid : Asteroid) : bool :=
  existsb (fun bullet : Bullet => checkCollision bullet asteroid) bullets.

(** The ship collides with some asteroid of the state. *)
Definition hasCollision (state : GameState) : bool :=
  existsb (fun asteroid => checkCollision (ship state) asteroid) (asteroids state).

(** A state with another [gameOver] flag. *)
Definition withGameOver (b : bool) (state : GameState) : GameState :=
  {| ship := ship state; asteroids := asteroids state; bullets := bullets state;
     score := score state; lives := lives state; gameOver := b |}.

(** The previous state with the steered copy of its ship: the argument
    the updater passes to [updateGameObjects]. *)
Definition steered (keys : Keys) (deltaTime : R) (prevState : GameState)
  : GameState :=
  {| ship := steerShip keys deltaTime (ship prevState);
     asteroids := asteroids prevState; bullets := bullets prevState;
     score := score prevState; lives := lives prevState;
     gameOver := gameOver prevState |}.

(** Every draw lies in [[0, 1)], as [Math.random()] promises. *)
Definition unitRng (g : Rng) : Prop := forall n, 0 <= g n < 1.

(** [g'] is what is left of [g] after some draws. *)
Definition tailOf (g g' : Rng) : Prop :=
  exists k, forall n, g' n = g (n + k)%nat.

(** ** Sample entities and states *)

(** An asteroid for the scenarios: eight vertices at distance [s] from
    the centre. *)
Definition rock (px py vx vy s : R) : Asteroid :=
  {| asteroid_obj := {| position := {| x := px; y := py |};
                        velocity := {| x := vx; y := vy |};
                        rotation := 0; size := s |};
     vertices := [{| x := s; y := 0 |};
                  {| x := 0.6 * s; y := 0.8 * s |};
                  {| x := 0; y := s |};
                  {| x := -0.6 * s; y := 0.8 * s |};
                  {| x := - s; y := 0 |};
                  {| x := -0.6 * s; y := -0.8 * s |};
                  {| x := 0; y := - s |};
                  {| x := 0.6 * s; y := -0.8 * s |}] |}.

(** A bullet of size 2, as [shoot] makes them. *)
Definition shot (px py vx vy : R) (l : Z) : Bullet :=
  {| bullet_obj := {| position := {| x := px; y := py |};
                      velocity := {| x := vx; y := vy |};
                      rotation := 0; size := 2 |};
     lifespan := l |}.

Definition sampleState (sh : Ship) (rocks : list Asteroid) (shots : list Bullet)
    (n : Z) (over : bool) : GameState :=
  {| ship := sh; asteroids := rocks; bullets := shots;
     score := 0; lives := n; gameOver := over |}.

(** A source of randomness that always returns one half. *)
Definition halves : Rng := fun _ => 0.5.

(** An asteroid about to leave by the left edge and a bullet far beyond
    the right and bottom edges. *)
Definition nearEdgeState : GameState :=
  sampleState (createShip 400 300)
              [rock 0.5 10 (-1) 0 30] [shot 5000 7000 7 0 60] 3 false.

(** An asteroid at rest more than two arena widths to the left. *)
Definition farState : GameState :=
  sampleState (createShip 400 300) [rock (-2000) 100 0 0 30] [] 3 false.

(** A ship moving at twice the speed limit. *)
Definition fastState : GameState :=
  sampleState {| ship_obj := {| position := {| x := 400; y := 300 |};
                                velocity := {| x := 10; y := 0 |};
                                rotation := 0; size := 20 |};
                 thrusting := false |}
              [] [] 3 false.

(** The centred ship has just fired its first bullet. *)
Definition oneShotState : GameState :=
  let s := sampleState (createShip 400 300) [] [] 3 false in
  shoot s s.

(** The ship sits at the very position of an asteroid. *)
Definition crashState (n : Z) (over : bool) : GameState :=
  sampleState (createShip 100 100) [rock 100 100 1 1 30] [] n over.

(** Game over: the last life is lost, four asteroids have been shot,
    the fifth drifts to the right. *)
Definition driftState : GameState :=
  {| ship := createShip 400 300;
     asteroids := [rock 10 20 0.5 0 30];
     bullets := [];
     score := 400; lives := 0; gameOver := true |}.

(** One asteroid and one bullet at the same position. *)
Definition duelState : GameState :=
  sampleState (createShip 400 300) [rock 100 100 1 1 30] [shot 100 100 7 0 60]
              3 false.

(** Two asteroids and a bullet at the same position, a third asteroid
    at distance 500. *)
Definition pileState : GameState :=
  sampleState (createShip 400 300)
              [rock 100 100 1 1 30; rock 100 100 0 1 40; rock 400 500 0 0 20]
              [shot 100 100 7 0 60] 3 false.

(** ** The [Game] component: initial state, restart and the updaters

    The React state [gameState] is created by [useState] and afterwards
    changed only through [setGameState], at three places: the per-frame
    updater ([gameLoopStep]), [shoot] and [handleRestart]. *)

Definition INITIAL_ASTEROIDS : nat := 5.
Definition INITIAL_LIVES : Z := 3.

(** The object literal given to [useState] and, again, to [setGameState]
    in [handleRestart]: a centred ship, five generated asteroids, no
    bullet, no score, three lives. *)
Definition initialState : Rand GameState :=
  let ship0 := createShip (CANVAS_WIDTH / 2) (CANVAS_HEIGHT / 2) in
  fresh <- Array_from INITIAL_ASTEROIDS (createAsteroid CANVAS_WIDTH CANVAS_HEIGHT) ;;
  ret {| ship := ship0; asteroids := fresh; bullets := [];
         score := 0; lives := INITIAL_LIVES; gameOver := false |}.

(** The state part of [handleRestart]: whatever the state was, it is
    replaced by a new initial state. *)
Definition handleRestart (prev : GameState) : Rand GameState := initialState.

(** What can change [gameState] after the first render: an animation
    frame with the keys held and its [deltaTime], a call of [shoot]
    (with the state [gameState] its closure sees), a click on
    "Play Again".

    A frame contributes the state its updater computes
    ([updaterState]).  The updater returns that state exactly when
    drawing it does not throw ([gameLoopStep_drawn]); a session is
    followed here as a sequence of states, and in a session no frame
    throws ([session_frames_are_drawn]). *)
Inductive Event : Type :=
| Tick (keys : Keys) (deltaTime : R)
| Fire (gameState : GameState)
| PlayAgain.

Definition handleEvent (e : Event) (prev : GameState) : Rand GameState :=
  match e with
  | Tick keys deltaTime => updaterState keys deltaTime prev
  | Fire gameState => ret (shoot gameState prev)
  | PlayAgain => handleRestart prev
  end.

(** The state after a sequence of events. *)
Fixpoint run (es : list Event) (s : GameState) : Rand GameState :=
  match es with
  | [] => ret s
  | e :: es' => s' <- handleEvent e s ;; run es' s'
  end.

(** A whole session: the initial state, then the events. *)
Definition play (es : list Event) : Rand GameState :=
  s0 <- initialState ;; run es s0.

(** ** Well-formed states *)

(** An asteroid as [createAsteroid] makes them and the integrator keeps
    them, in the 800 x 600 arena. *)
Definition asteroidOK (a : Asteroid) : Prop :=
  inArena CANVAS_WIDTH CANVAS_HEIGHT a
  /\ 20 <= size a < 50
  /\ (-1 <= x (velocity a) < 1 /\ -1 <= y (velocity a) < 1)
  /\ (7 <= List.length (vertices a) <= 11)%nat.

(** A bullet as [shoot] makes them and the integrator keeps them. *)
Definition bulletOK (b : Bullet) : Prop :=
  inArena CANVAS_WIDTH CANVAS_HEIGHT b
  /\ size b = 2
  /\ speedOf (velocity b) = 7
  /\ (1 <= lifespan b <= 60)%Z.

Definition shipOK (sh : Ship) : Prop :=
  inArena CANVAS_WIDTH CANVAS_HEIGHT sh
  /\ size sh = 20
  /\ speedOf (velocity sh) <= maxSpeed.

Definition wellFormed (s : GameState) : Prop :=
  shipOK (ship s)
  /\ Forall asteroidOK (asteroids s)
  /\ (1 <= List.length (asteroids s) <= 5)%nat
  /\ Forall bulletOK (bullets s).

(** The closure of a [Fire] event sees a ship inside the arena. *)
Definition eventOK (e : Event) : Prop :=
  match e with
  | Fire gameState => inArena CANVAS_WIDTH CANVAS_HEIGHT (ship gameState)
  | _ => True
  end.

(** Lives and the game-over flag go together. *)
Definition livesOK (s : GameState) : Prop :=
  (0 <= lives s <= INITIAL_LIVES)%Z
  /\ (gameOver s = true <-> lives s = 0%Z).

(** The events of a sequence of animation frames. *)
Definition frames (inputs : list (Keys * R)) : list Event :=
  map (fun i => Tick (fst i) (snd i)) inputs.

(** Where a coordinate [p] comes back in when it is not more than one
    [dimension] outside [[0, dimension)]: unchanged inside, shifted by one
    [dimension] from the other side outside. *)
Definition reenter (p dimension : R) : R :=
  if Rlt_dec p 0 then p + dimension
  else if Rlt_dec p dimension then p
  else p - dimension.

(** A ship coasting at speed 5 along (3, 4), engine off. *)
Definition coastingShip : Ship :=
  {| ship_obj := {| position := {| x := 400; y := 300 |};
                    velocity := {| x := 3; y := 4 |};
                    rotation := 0; size := 20 |};
     thrusting := false |}.

Definition coastingState : GameState :=
  sampleState coastingShip [rock 100 100 1 1 30] [] 3 false.

(** An event other than a restart. *)
Definition noRestart (e : Event) : Prop :=
  match e with
  | PlayAgain => False
  | _ => True
  end.

(** The score is a number of asteroids times 100. *)
Definition scoreOK (s : GameState) : Prop :=
  exists k : nat, score s = (100 * Z.of_nat k)%Z.

(** The asteroid has a first vertex for [moveTo]. *)
Definition hasVertex (a : Asteroid) : bool :=
  match vertices a with
  | [] => false
  | _ :: _ => true
  end.

(** A state whose second asteroid has lost its vertices. *)
Definition brokenState : GameState :=
  sampleState (createShip 400 300)
              [rock 100 100 1 1 30;
               {| asteroid_obj := rock 200 200 0 0 20; vertices := [] |}]
              [shot 10 10 7 0 60] 3 false.

(** The ship sits at the centre of the arena, on an asteroid. *)
Definition centreCrashState : GameState :=
  sampleState (createShip 400 300) [rock 400 300 0 0 30] [] 3 false.

(** * Properties *)

(** ** Facts about the number model *)

Section NumberFacts.

Lemma ltb_true_iff (a b : R) : Js.ltb a b = true <-> a < b.
Proof.
  unfold Js.ltb. destruct (Rlt_dec a b); split; intros; try easy.
Qed.

Lemma ltb_false_iff (a b : R) : Js.ltb a b = false <-> b <= a.
Proof.
  unfold Js.ltb. destruct (Rlt_dec a b); split; intros; try easy; lra.
Qed.

Lemma div_nonneg (a b : R) : 0 < b -> 0 <= a -> 0 <= a / b.
Proof.
  intros Hb Ha. unfold Rdiv. apply Rmult_le_pos; [assumption |].
  left. apply Rinv_0_lt_compat. assumption.
Qed.

Lemma Int_part_bounds (r : R) : IZR (Int_part r) <= r < IZR (Int_part r) + 1.
Proof. destruct (base_Int_part r). lra. Qed.

Lemma trunc_nonneg_spec (r : R) (k : Z) :
  0 <= r -> IZR k <= r < IZR k + 1 -> Js.trunc r = k.
Proof.
  intros Hr Hk. unfold Js.trunc. destruct (Rle_dec 0 r); [| lra].
  symmetry. apply Int_part_spec. lra.
Qed.

Lemma trunc_neg_spec (r : R) (k : Z) :
  r < 0 -> IZR k - 1 < r <= IZR k -> Js.trunc r = k.
Proof.
  intros Hr Hk. unfold Js.trunc. destruct (Rle_dec 0 r); [lra |].
  assert (E : (- k)%Z = Int_part (- r)).
  { apply Int_part_spec. rewrite opp_IZR. lra. }
  rewrite <- E. lia.
Qed.

(** The remainder of a dividend that is not negative lies in [[0, b)]. *)
Lemma rem_nonneg (a b : R) : 0 < b -> 0 <= a -> 0 <= a %% b < b.
Proof.
  intros Hb Ha. unfold Js.rem, Js.trunc.
  assert (Ht : 0 <= a / b) by (apply div_nonneg; lra).
  destruct (Rle_dec 0 (a / b)); [| lra].
  pose proof (Int_part_bounds (a / b)) as Hq.
  set (q := IZR (Int_part (a / b))) in *.
  assert (Ea : a = a / b * b) by (field; lra).
  set (t := a / b) in *. rewrite Ea. nra.
Qed.

(** The remainder of a negative dividend lies in [(-b, 0]]. *)
Lemma rem_neg (a b : R) : 0 < b -> a < 0 -> - b < a %% b <= 0.
Proof.
  intros Hb Ha. unfold Js.rem, Js.trunc.
  assert (Ea : a = a / b * b) by (field; lra).
  assert (Ht : a / b < 0).
  { destruct (Rlt_dec (a / b) 0); [assumption |]. nra. }
  destruct (Rle_dec 0 (a / b)); [lra |].
  pose proof (Int_part_bounds (- (a / b))) as Hq.
  rewrite opp_IZR.
  set (q := IZR (Int_part (- (a / b)))) in *.
  set (t := a / b) in *. rewrite Ea. nra.
Qed.

(** The remainder is the one number of the dividend's sign that differs
    from it by a whole multiple of the divisor. *)
Lemma rem_unique (a b r : R) (k : Z) :
  0 < b -> a = IZR k * b + r ->
  (0 <= a /\ 0 <= r < b) \/ (a < 0 /\ - b < r <= 0) ->
  a %% b = r.
Proof.
  intros Hb Ea Hr. unfold Js.rem.
  assert (Et : a / b = IZR k + r / b) by (rewrite Ea; field; lra).
  assert (Erb : r = r / b * b) by (field; lra).
  assert (Ek : Js.trunc (a / b) = k).
  { destruct Hr as [[Ha Hr] | [Ha Hr]].
    - apply trunc_nonneg_spec.
      + apply div_nonneg; lra.
      + rewrite Et. set (u := r / b) in *. nra.
    - apply trunc_neg_spec.
      + rewrite Et. set (u := r / b) in *.
        destruct (Rlt_dec (IZR k + u) 0); [assumption | nra].
      + rewrite Et. set (u := r / b) in *. nra. }
  rewrite Ek, Ea. ring.
Qed.

Lemma wrapAxis_range (p d : R) : 0 < d -> - d <= p -> 0 <= wrapAxis p d < d.
Proof. intros Hd Hp. apply rem_nonneg; lra. Qed.

Lemma wrapAxis_far_negative (p d : R) : 0 < d -> p < - d -> - d < wrapAxis p d <= 0.
Proof. intros Hd Hp. apply rem_neg; lra. Qed.

End NumberFacts.

(** ** Facts about lists *)

Section ListFacts.

Context {A : Type}.

Lemma Forall_filter_keep (P : A -> Prop) (f : A -> bool) (l : list A) :
  Forall P l -> Forall P (filter f l).
Proof.
  rewrite !Forall_forall. intros H a Ha.
  apply H. apply filter_In in Ha. tauto.
Qed.

End ListFacts.

(** ** The motion integrator *)

Section Integrator.

Variables width height : R.

Lemma updateGameObjects_asteroids (s : GameState) :
  asteroids (updateGameObjects s width height)
  = map (updateAsteroid width height) (asteroids s).
Proof. reflexivity. Qed.

Lemma updateGameObjects_bullets (s : GameState) :
  bullets (updateGameObjects s width height)
  = filter (fun b => (lifespan b >? 0)%Z)
           (map (updateBullet width height) (bullets s)).
Proof. reflexivity. Qed.

(** Every position the integrator writes is the wrap of the pre-wrap
    position. *)
Lemma updateShip_position (sh : Ship) :
  let p := preWrap sh (velocity (updateShip sh width height)) in
  position (updateShip sh width height)
  = {| x := wrapAxis (x p) width; y := wrapAxis (y p) height |}.
Proof. reflexivity. Qed.

Lemma updateAsteroid_position (a : Asteroid) :
  let p := preWrap a (velocity a) in
  position (updateAsteroid width height a)
  = {| x := wrapAxis (x p) width; y := wrapAxis (y p) height |}.
Proof. reflexivity. Qed.

Lemma updateBullet_position (b : Bullet) :
  let p := preWrap b (velocity b) in
  position (updateBullet width height b)
  = {| x := wrapAxis (x p) width; y := wrapAxis (y p) height |}.
Proof. reflexivity. Qed.

Hypothesis width_pos : 0 < width.
Hypothesis height_pos : 0 < height.

Lemma wrapped_inArena (o o' : GameObject) (p : Point) :
  position o' = {| x := wrapAxis (x p) width; y := wrapAxis (y p) height |} ->
  oneWrapAway width height p -> inArena width height o'.
Proof.
  intros E [Hx Hy]. unfold inArena. rewrite E. simpl.
  split; apply wrapAxis_range; assumption.
Qed.

Lemma updateAsteroid_inArena (a : Asteroid) :
  oneWrapAway width height (preWrap a (velocity a)) ->
  inArena width height (updateAsteroid width height a).
Proof. apply (wrapped_inArena a), updateAsteroid_position. Qed.

Lemma updateBullet_inArena (b : Bullet) :
  oneWrapAway width height (preWrap b (velocity b)) ->
  inArena width height (updateBullet width height b).
Proof. apply (wrapped_inArena b), updateBullet_position. Qed.

End Integrator.

Lemma wrapped_wrapsInto (width height : R) (o' : GameObject) (p : Point) :
  0 < width -> 0 < height ->
  position o' = {| x := wrapAxis (x p) width; y := wrapAxis (y p) height |} ->
  wrapsInto width height p o'.
Proof.
  intros Hw Hh E. unfold wrapsInto. rewrite E. cbn [x y].
  split; intros H; apply wrapAxis_range; assumption.
Qed.

(** C1 (as amended).  In an arena of positive width and height, for the
    ship, for every asteroid and for every bullet of the state that
    [updateGameObjects] returns, and for each axis on its own: when the
    pre-wrap coordinate of the object (its coordinate before the tick
    plus the velocity it moves with) is at least [-width] on the x axis,
    respectively [-height] on the y axis, then after the tick
    [0 <= position.x < width], respectively [0 <= position.y < height].
    No upper bound on the pre-wrap coordinate is needed, and nothing is
    asked of the other objects of the state. *)
Theorem wrap_within_arena (s : GameState) (width height : R) :
  0 < width -> 0 < height ->
  let s' := updateGameObjects s width height in
  wrapsInto width height (preWrap (ship s) (velocity (ship s'))) (ship s')
  /\ (forall a' : Asteroid, In a' (asteroids s') ->
      exists a : Asteroid,
        In a (asteroids s) /\ a' = updateAsteroid width height a
        /\ wrapsInto width height (preWrap a (velocity a)) a')
  /\ (forall b' : Bullet, In b' (bullets s') ->
      exists b : Bullet,
        In b (bullets s) /\ b' = updateBullet width height b
        /\ wrapsInto width height (preWrap b (velocity b)) b').
Proof.
  intros Hw Hh s'. split; [| split].
  - apply (wrapped_wrapsInto width height _ _ Hw Hh).
    apply updateShip_position.
  - intros a' Hin. subst s'. rewrite updateGameObjects_asteroids in Hin.
    apply in_map_iff in Hin. destruct Hin as (a & Ea & Hin).
    exists a. split; [exact Hin |]. split; [symmetry; exact Ea |].
    subst a'. apply (wrapped_wrapsInto width height _ _ Hw Hh).
    apply updateAsteroid_position.
  - intros b' Hin. subst s'. rewrite updateGameObjects_bullets in Hin.
    apply filter_In in Hin. destruct Hin as [Hin _].
    apply in_map_iff in Hin. destruct Hin as (b & Eb & Hin).
    exists b. split; [exact Hin |]. split; [symmetry; exact Eb |].
    subst b'. apply (wrapped_wrapsInto width height _ _ Hw Hh).
    apply updateBullet_position.
Qed.

(** *** Concrete evaluation of the wrap *)

Lemma wrapAxis_eval (p d r : R) (k : Z) :
  0 < d -> p + d = IZR k * d + r ->
  (0 <= p + d /\ 0 <= r < d) \/ (p + d < 0 /\ - d < r <= 0) ->
  wrapAxis p d = r.
Proof. intros Hd E H. unfold wrapAxis. apply (rem_unique _ _ _ k); assumption. Qed.

(** *** The speed limit *)

Lemma speedOf_nonneg (v : Point) : 0 <= speedOf v.
Proof. apply sqrt_pos. Qed.

Lemma speedOf_sqr (v : Point) : speedOf v * speedOf v = x v * x v + y v * y v.
Proof. unfold speedOf. apply sqrt_sqrt. nra. Qed.

Lemma limitSpeed_slow (v : Point) : speedOf v <= maxSpeed -> limitSpeed v = v.
Proof.
  intros H. unfold limitSpeed, Js.gtb.
  rewrite (proj2 (ltb_false_iff _ _) H). reflexivity.
Qed.

Lemma limitSpeed_fast (v : Point) :
  maxSpeed < speedOf v ->
  limitSpeed v = {| x := x v * (maxSpeed / speedOf v);
                    y := y v * (maxSpeed / speedOf v) |}.
Proof.
  intros H. unfold limitSpeed, Js.gtb.
  rewrite (proj2 (ltb_true_iff _ _) H). reflexivity.
Qed.

Lemma speedOf_limitSpeed_fast (v : Point) :
  maxSpeed < speedOf v -> speedOf (limitSpeed v) = maxSpeed.
Proof.
  intros H. rewrite (limitSpeed_fast v H). unfold maxSpeed in *.
  pose proof (speedOf_sqr v) as Hs.
  unfold speedOf at 1. simpl.
  replace (x v * (5 / speedOf v) * (x v * (5 / speedOf v)) +
           y v * (5 / speedOf v) * (y v * (5 / speedOf v)))
    with (5 * 5).
  - apply sqrt_square. lra.
  - set (s := speedOf v) in *.
    transitivity ((x v * x v + y v * y v) * (5 * 5) / (s * s)).
    + rewrite <- Hs. field. lra.
    + field. lra.
Qed.

Lemma speedOf_rest : speedOf {| x := 0 * 0.99; y := 0 * 0.99 |} = 0.
Proof.
  unfold speedOf. simpl.
  replace (0 * 0.99 * (0 * 0.99) + 0 * 0.99 * (0 * 0.99)) with 0 by lra.
  apply sqrt_0.
Qed.

Lemma updateShip_at_rest (px py width height : R) :
  velocity (updateShip (createShip px py) width height)
  = {| x := 0 * 0.99; y := 0 * 0.99 |}.
Proof.
  change (velocity (updateShip (createShip px py) width height))
    with (limitSpeed {| x := 0 * 0.99; y := 0 * 0.99 |}).
  apply limitSpeed_slow. rewrite speedOf_rest. unfold maxSpeed. lra.
Qed.

(** The tick at work on [nearEdgeState]: the asteroid leaving by the left
    edge and the bullet far to the right both come back inside. *)
Lemma wrap_within_arena_witness :
  let s' := updateGameObjects nearEdgeState 800 600 in
  inArena 800 600 (ship s')
  /\ Forall (fun a : Asteroid => inArena 800 600 a) (asteroids s')
  /\ Forall (fun b : Bullet => inArena 800 600 b) (bullets s').
Proof.
  destruct (wrap_within_arena nearEdgeState 800 600) as ([Hsx Hsy] & Ha & Hb);
    [lra | lra |].
  split; [| split].
  - change (velocity (ship (updateGameObjects nearEdgeState 800 600)))
      with (velocity (updateShip (createShip 400 300) 800 600)) in Hsx, Hsy.
    rewrite updateShip_at_rest in Hsx, Hsy.
    split; [apply Hsx | apply Hsy]; simpl; lra.
  - apply Forall_forall. intros a' Hin.
    destruct (Ha a' Hin) as (a & Hina & _ & Hx & Hy).
    destruct Hina as [<- | []].
    split; [apply Hx | apply Hy]; simpl; lra.
  - apply Forall_forall. intros b' Hin.
    destruct (Hb b' Hin) as (b & Hinb & _ & Hx & Hy).
    destruct Hinb as [<- | []].
    split; [apply Hx | apply Hy]; simpl; lra.
Defined.

(** C1 (as stated) fails: an asteroid at rest at [x = -2000] in the
    800 x 600 arena is moved to [x = -400] by one tick, outside
    [0 <= x < 800]. *)
Lemma wrap_far_negative_escapes :
  let s' := updateGameObjects farState 800 600 in
  map (fun a : Asteroid => x (position a)) (asteroids s') = [-400]
  /\ ~ Forall (fun a : Asteroid => inArena 800 600 a) (asteroids s').
Proof.
  assert (E : wrapAxis (-2000 + 0) 800 = -400).
  { apply (wrapAxis_eval _ _ _ (-1)); lra. }
  split.
  - simpl. rewrite E. reflexivity.
  - intros H. simpl in H. inversion H as [| a l [Hx _] _]; subst.
    simpl in Hx. rewrite E in Hx. lra.
Qed.

(** *** Positions the game itself produces *)

Lemma speedOf_limitSpeed_le (v : Point) : speedOf (limitSpeed v) <= maxSpeed.
Proof.
  destruct (Rlt_dec maxSpeed (speedOf v)) as [H | H].
  - rewrite (speedOf_limitSpeed_fast v H). lra.
  - rewrite limitSpeed_slow; lra.
Qed.

(** Each component of the limited velocity is within the speed limit. *)
Lemma limitSpeed_components (v : Point) :
  - maxSpeed <= x (limitSpeed v) <= maxSpeed
  /\ - maxSpeed <= y (limitSpeed v) <= maxSpeed.
Proof.
  pose proof (speedOf_limitSpeed_le v) as Hle.
  pose proof (speedOf_nonneg (limitSpeed v)) as H0.
  pose proof (speedOf_sqr (limitSpeed v)) as Hs.
  unfold maxSpeed in *.
  set (s := speedOf (limitSpeed v)) in *.
  set (a := x (limitSpeed v)) in *. set (b := y (limitSpeed v)) in *.
  assert (Hss : s * s <= 25) by nra.
  split; split; nra.
Qed.

(** In an arena at least [maxSpeed] wide and high, objects that start
    inside it and do not move left or up by more than one arena size per
    tick are inside it again after the tick: the states the game runs
    through never meet the far-negative case of the wrap. *)
Lemma arena_preserved (s : GameState) (width height : R) :
  maxSpeed <= width -> maxSpeed <= height ->
  inArena width height (ship s) ->
  Forall (fun a : Asteroid =>
            inArena width height a
            /\ - width <= x (velocity a) /\ - height <= y (velocity a))
         (asteroids s) ->
  Forall (fun b : Bullet =>
            inArena width height b
            /\ - width <= x (velocity b) /\ - height <= y (velocity b))
         (bullets s) ->
  let s' := updateGameObjects s width height in
  inArena width height (ship s')
  /\ Forall (fun a : Asteroid => inArena width height a) (asteroids s')
  /\ Forall (fun b : Bullet => inArena width height b) (bullets s').
Proof.
  intros Hw Hh [Hsx Hsy] Ha Hb s'.
  assert (Hw0 : 0 < width) by (unfold maxSpeed in *; lra).
  assert (Hh0 : 0 < height) by (unfold maxSpeed in *; lra).
  split; [| split].
  - apply (wrapped_inArena width height Hw0 Hh0 (ship s) _ _
             (updateShip_position width height (ship s))).
    change (velocity (updateShip (ship s) width height))
      with (limitSpeed (applyFriction (applyThrust (ship s)))).
    destruct (limitSpeed_components (applyFriction (applyThrust (ship s))))
      as [Hx Hy].
    unfold oneWrapAway, preWrap. cbn [x y]. lra.
  - subst s'. rewrite updateGameObjects_asteroids.
    apply Forall_map. eapply Forall_impl; [| exact Ha].
    intros a ([Hx Hy] & Hvx & Hvy). apply updateAsteroid_inArena; try assumption.
    unfold oneWrapAway, preWrap. cbn [x y]. lra.
  - subst s'. rewrite updateGameObjects_bullets.
    apply Forall_filter_keep. apply Forall_map.
    eapply Forall_impl; [| exact Hb].
    intros b ([Hx Hy] & Hvx & Hvy). apply updateBullet_inArena; try assumption.
    unfold oneWrapAway, preWrap. cbn [x y]. lra.
Qed.

(** C7.  After every call of [updateGameObjects] the speed
    [sqrt (vx * vx + vy * vy)] of the ship is at most [maxSpeed = 5];
    when the speed after friction exceeds 5 the velocity is rescaled to
    magnitude exactly 5, and otherwise the velocity after friction is
    kept.  (Exact arithmetic: the bound holds without an epsilon.) *)
Theorem ship_speed_limited (s : GameState) (width height : R) :
  let v := applyFriction (applyThrust (ship s)) in
  let v' := velocity (ship (updateGameObjects s width height)) in
  sqrt (x v' * x v' + y v' * y v') <= 5
  /\ (5 < speedOf v -> speedOf v' = 5)
  /\ (speedOf v <= 5 -> v' = v).
Proof.
  intros v v'.
  change v' with (limitSpeed v).
  change (sqrt (x (limitSpeed v) * x (limitSpeed v) +
                y (limitSpeed v) * y (limitSpeed v)))
    with (speedOf (limitSpeed v)).
  assert (Hfast : 5 < speedOf v -> speedOf (limitSpeed v) = 5).
  { intros H. apply speedOf_limitSpeed_fast. exact H. }
  assert (Hslow : speedOf v <= 5 -> limitSpeed v = v).
  { intros H. apply limitSpeed_slow. exact H. }
  split; [| split; assumption].
  destruct (Rlt_dec 5 (speedOf v)) as [H | H].
  - rewrite (Hfast H). lra.
  - rewrite Hslow; lra.
Qed.

(** A ship at speed 10 leaves the tick at speed exactly 5. *)
Lemma ship_speed_limited_witness :
  speedOf (velocity (ship (updateGameObjects fastState 800 600))) = 5.
Proof.
  apply (proj1 (proj2 (ship_speed_limited fastState 800 600))).
  unfold speedOf. simpl.
  replace (10 * 0.99 * (10 * 0.99) + 0 * 0.99 * (0 * 0.99))
    with (9.9 * 9.9) by lra.
  rewrite sqrt_square; lra.
Defined.

(** *** Bullet lifespans *)

Lemma lifespan_survivors (ls : list Z) (n : Z) :
  (1 <= n)%Z ->
  map (fun l => l - n)%Z
      (filter (fun l => l >? n)%Z
              (map (fun l => l - 1)%Z (filter (fun l => l >? 1)%Z ls)))
  = map (fun l => l - (n + 1))%Z (filter (fun l => l >? n + 1)%Z ls).
Proof.
  intros Hn. induction ls as [| l ls IH]; [reflexivity |].
  simpl. destruct (Z.gtb_spec l 1), (Z.gtb_spec l (n + 1)); simpl;
    try destruct (Z.gtb_spec (l - 1) n); simpl; try lia;
    rewrite IH; try reflexivity.
  f_equal. lia.
Qed.

Section Lifespans.

Variables width height : R.

Lemma bullets_after_tick (s : GameState) :
  bullets (updateGameObjects s width height)
  = map (updateBullet width height)
        (filter (fun b => lifespan b >? 1)%Z (bullets s)).
Proof.
  rewrite updateGameObjects_bullets, filter_map_swap. f_equal.
  apply filter_ext. intros b. simpl.
  destruct (Z.gtb_spec (lifespan b - 1) 0), (Z.gtb_spec (lifespan b) 1);
    try reflexivity; lia.
Qed.

Lemma lifespans_after_tick (s : GameState) :
  map lifespan (bullets (updateGameObjects s width height))
  = map (fun l => l - 1)%Z (filter (fun l => l >? 1)%Z (map lifespan (bullets s))).
Proof.
  rewrite bullets_after_tick, filter_map_swap, !map_map. reflexivity.
Qed.

Lemma lifespans_after_ticks (n : nat) (s : GameState) :
  map lifespan (bullets (ticks (S n) width height s))
  = map (fun l => l - Z.of_nat (S n))%Z
        (filter (fun l => l >? Z.of_nat (S n))%Z (map lifespan (bullets s))).
Proof.
  revert s. induction n as [| n IH]; intros s.
  - apply lifespans_after_tick.
  - change (ticks (S (S n)) width height s)
      with (ticks (S n) width height (updateGameObjects s width height)).
    rewrite IH, lifespans_after_tick, lifespan_survivors by lia.
    replace (Z.of_nat (S n) + 1)%Z with (Z.of_nat (S (S n))) by lia.
    reflexivity.
Qed.

End Lifespans.

(** C6.  In every call of [updateGameObjects] the bullets of the output
    are the input bullets whose lifespan minus one is positive, each
    with its lifespan decremented by exactly 1; after [n >= 1] ticks the
    lifespans left are those that were greater than [n], less [n].
    Hence a bullet with lifespan 1 is gone after one tick, and a bullet
    with lifespan 60 is present (with lifespan [60 - n]) after each of
    the first 59 ticks and absent after tick 60. *)
Theorem bullet_expiry (s : GameState) (width height : R) :
  bullets (updateGameObjects s width height)
  = map (updateBullet width height)
        (filter (fun b => lifespan b - 1 >? 0)%Z (bullets s))
  /\ (forall b, lifespan (updateBullet width height b) = lifespan b - 1)%Z
  /\ (forall n,
        map lifespan (bullets (ticks (S n) width height s))
        = map (fun l => l - Z.of_nat (S n))%Z
              (filter (fun l => l >? Z.of_nat (S n))%Z (map lifespan (bullets s))))
  /\ (forall b, bullets s = [b] -> lifespan b = 1%Z ->
        bullets (ticks 1 width height s) = [])
  /\ (forall b, bullets s = [b] -> lifespan b = 60%Z ->
        (forall n, (n <= 59)%nat ->
           map lifespan (bullets (ticks n width height s)) = [60 - Z.of_nat n]%Z)
        /\ bullets (ticks 60 width height s) = []).
Proof.
  split; [| split; [| split; [| split]]].
  - rewrite updateGameObjects_bullets, filter_map_swap. reflexivity.
  - reflexivity.
  - intros n. apply lifespans_after_ticks.
  - intros b Hb Hl. apply (map_eq_nil lifespan).
    rewrite lifespans_after_ticks, Hb. simpl. rewrite Hl. reflexivity.
  - intros b Hb Hl. split.
    + intros [| n] Hn.
      * simpl. rewrite Hb. simpl. rewrite Hl. reflexivity.
      * rewrite lifespans_after_ticks, Hb. cbn [map filter]. rewrite Hl.
        destruct (Z.gtb_spec 60 (Z.of_nat (S n))); [reflexivity | lia].
    + apply (map_eq_nil lifespan).
      rewrite lifespans_after_ticks, Hb. simpl. rewrite Hl. reflexivity.
Qed.

(** The bullet [shoot] builds has lifespan 60: it is there after each of
    the first 59 ticks and gone after the 60th. *)
Lemma bullet_expiry_witness :
  map lifespan (bullets oneShotState) = [60%Z]
  /\ (forall n, (n <= 59)%nat ->
       map lifespan (bullets (ticks n 800 600 oneShotState)) = [60 - Z.of_nat n]%Z)
  /\ bullets (ticks 60 800 600 oneShotState) = [].
Proof.
  split; [reflexivity |].
  apply (proj2 (proj2 (proj2 (proj2 (bullet_expiry oneShotState 800 600))))
           (shot 400 300 (cos 0 * 7) (sin 0 * 7) 60)); reflexivity.
Defined.

(** C10.  For every input state [updateGameObjects] leaves [score],
    [lives] and [gameOver] unchanged, keeps the size, the rotation and
    the [thrusting] flag of the ship, keeps the size, the vertices and
    the velocity of every asteroid (and the number of asteroids), and
    keeps the size, the velocity and the rotation of every bullet it
    returns; the bullets returned are the moved input bullets whose
    decremented lifespan is positive. *)
Theorem updateGameObjects_frame (s : GameState) (width height : R) :
  let s' := updateGameObjects s width height in
  score s' = score s /\ lives s' = lives s /\ gameOver s' = gameOver s
  /\ size (ship s') = size (ship s)
  /\ rotation (ship s') = rotation (ship s)
  /\ thrusting (ship s') = thrusting (ship s)
  /\ map (fun a : Asteroid => (size a, vertices a, velocity a)) (asteroids s')
     = map (fun a : Asteroid => (size a, vertices a, velocity a)) (asteroids s)
  /\ map (fun b : Bullet => (size b, velocity b, rotation b)) (bullets s')
     = map (fun b : Bullet => (size b, velocity b, rotation b))
           (filter (fun b => lifespan b - 1 >? 0)%Z (bullets s)).
Proof.
  intros s'. repeat (split; [reflexivity |]). split.
  - subst s'. rewrite updateGameObjects_asteroids, map_map. reflexivity.
  - subst s'. rewrite updateGameObjects_bullets, filter_map_swap, map_map.
    reflexivity.
Qed.

(** ** The entity factory *)

Lemma createShip_fields (px py : R) :
  position (createShip px py) = {| x := px; y := py |}
  /\ velocity (createShip px py) = {| x := 0; y := 0 |}
  /\ rotation (createShip px py) = 0
  /\ size (createShip px py) = 20
  /\ thrusting (createShip px py) = false.
Proof. repeat split. Qed.

Lemma tailOf_refl (g : Rng) : tailOf g g.
Proof. exists 0%nat. intros n. rewrite Nat.add_0_r. reflexivity. Qed.

Lemma tailOf_trans (g1 g2 g3 : Rng) : tailOf g1 g2 -> tailOf g2 g3 -> tailOf g1 g3.
Proof.
  intros [k1 H1] [k2 H2]. exists (k2 + k1)%nat. intros n.
  rewrite H2, H1. f_equal. lia.
Qed.

Lemma tailOf_drop (g g' : Rng) (k : nat) :
  (forall n, g' n = g (k + n)%nat) -> tailOf g g'.
Proof. intros H. exists k. intros n. rewrite H. f_equal. lia. Qed.

Lemma tailOf_unit (g g' : Rng) : unitRng g -> tailOf g g' -> unitRng g'.
Proof. intros Hg [k Hk] n. rewrite Hk. apply Hg. Qed.

Lemma halves_unit : unitRng halves.
Proof. intros n. unfold halves. lra. Qed.

(** The loop pushes one vertex per iteration and only consumes draws. *)
Lemma createVertices_run (sz : R) (nv : Z) (i k : nat) (g : Rng) :
  List.length (fst (runState (createVertices sz nv i k) g)) = k
  /\ tailOf g (snd (runState (createVertices sz nv i k) g)).
Proof.
  revert i g. induction k as [| k IH]; intros i g.
  - split; [reflexivity | apply tailOf_refl].
  - cbn [createVertices runState bind ret Monad_state Math_random].
    specialize (IH (S i) (fun n => g (S n))).
    destruct (runState (createVertices sz nv (S i) k) (fun n => g (S n)))
      as [vs g'].
    cbn [fst snd List.length] in *. destruct IH as [Hl Ht]. split.
    + f_equal. exact Hl.
    + apply (tailOf_trans g (fun n => g (S n)) g'); [| exact Ht].
      apply (tailOf_drop _ _ 1). reflexivity.
Qed.

Lemma floor_times_5 (r : R) : 0 <= r < 1 -> (0 <= Js.floor (r * 5) <= 4)%Z.
Proof.
  intros Hr. unfold Js.floor.
  pose proof (Int_part_bounds (r * 5)) as Hq.
  split.
  - apply le_IZR. assert (-1 < IZR (Int_part (r * 5))) by lra.
    apply lt_IZR in H. apply IZR_le. lia.
  - assert (H : IZR (Int_part (r * 5)) < 5) by lra.
    apply lt_IZR in H. lia.
Qed.

(** What [createAsteroid] returns when every draw lies in [[0, 1)]:
    a size in [[20, 50)], 7 to 11 vertices, a position inside the
    arena it is given, velocity components in [[-1, 1)], a rotation
    in [[0, 2 PI)]; the draws left are what remains of the source. *)
Lemma createAsteroid_ranges (W H : R) (g : Rng) :
  unitRng g ->
  let a := evalState (createAsteroid W H) g in
  20 <= size a < 50
  /\ (7 <= List.length (vertices a) <= 11)%nat
  /\ (0 < W -> 0 < H -> inArena W H a)
  /\ (-1 <= x (velocity a) < 1 /\ -1 <= y (velocity a) < 1)
  /\ 0 <= rotation a < 2 * PI
  /\ tailOf g (execState (createAsteroid W H) g).
Proof.
  intros Hg a. subst a. unfold evalState, execState.
  unfold createAsteroid. cbn [runState bind ret Monad_state Math_random].
  pose proof (createVertices_run (g 0%nat * 30 + 20) (Js.floor (g 1%nat * 5) + 7) 0
                (Z.to_nat (Js.floor (g 1%nat * 5) + 7))
                (fun n => g (S (S n)))) as [Hl Ht].
  destruct (runState (createVertices _ _ _ _) _) as [vs g2].
  cbn [fst snd] in *.
  assert (Hg2 : unitRng g2).
  { apply (tailOf_unit (fun n => g (S (S n)))); [| exact Ht].
    intros n. apply Hg. }
  pose proof (Hg 0%nat) as H0. pose proof (Hg 1%nat) as H1.
  pose proof (floor_times_5 _ H1) as Hf.
  pose proof (Hg2 0%nat) as P0. pose proof (Hg2 1%nat) as P1.
  pose proof (Hg2 2%nat) as P2. pose proof (Hg2 3%nat) as P3.
  pose proof (Hg2 4%nat) as P4.
  pose proof PI_RGT_0 as Hpi.
  cbn [size vertices position velocity rotation asteroid_obj x y].
  split; [lra |]. split; [rewrite Hl; lia |]. split.
  { intros HW HH. unfold inArena.
    cbn [position asteroid_obj x y]. nra. }
  split; [lra |]. split; [nra |].
  apply (tailOf_trans g (fun n => g (S (S n))) _).
  - apply (tailOf_drop _ _ 2). reflexivity.
  - apply (tailOf_trans _ g2 _); [exact Ht |].
    apply (tailOf_drop _ _ 5). reflexivity.
Qed.

(** Every element [Array.from] builds satisfies what single runs of the
    generator guarantee on any source with draws in [[0, 1)]. *)
Lemma Array_from_Forall {A : Type} (P : A -> Prop) (c : Rand A) (n : nat) (g : Rng) :
  (forall g0, unitRng g0 ->
     P (evalState c g0) /\ tailOf g0 (execState c g0)) ->
  unitRng g -> Forall P (evalState (Array_from n c) g).
Proof.
  intros Hc. revert g. induction n as [| n IH]; intros g Hg.
  - constructor.
  - unfold evalState, execState in *.
    cbn [Array_from runState bind ret Monad_state].
    destruct (Hc g Hg) as [Hp Ht].
    destruct (runState c g) as [a g1]. cbn [fst snd] in *.
    specialize (IH g1 (tailOf_unit g g1 Hg Ht)).
    destruct (runState (Array_from n c) g1) as [l g2]. cbn [fst] in *.
    constructor; assumption.
Qed.

(** The refill of [handleCollisions]: five asteroids inside the
    800 x 600 arena, each of size at least 20. *)
Lemma refill_inArena (g : Rng) :
  unitRng g ->
  Forall (fun a : Asteroid => inArena 800 600 a /\ 20 <= size a < 50)
         (evalState (Array_from 5 (createAsteroid 800 600)) g).
Proof.
  apply Array_from_Forall. intros g0 Hg0.
  destruct (createAsteroid_ranges 800 600 g0 Hg0) as (Hs & _ & Ha & _ & _ & Ht).
  split; [split; [apply Ha; lra | exact Hs] | exact Ht].
Qed.

(** ** The collision predicate *)

Lemma pow_2_Rsqr (d : R) : Js.pow d 2 = Rsqr d.
Proof. unfold Js.pow, Rsqr. simpl. ring. Qed.

Lemma checkCollision_euclid (o : GameObject) (a : Asteroid) :
  checkCollision o a
  = Js.ltb (euclid (position o) (position a)) (size o + size a).
Proof. unfold checkCollision, euclid. rewrite !pow_2_Rsqr. reflexivity. Qed.

Lemma euclid_eval (p q : Point) (d : R) :
  0 <= d -> Rsqr (x p - x q) + Rsqr (y p - y q) = d * d -> euclid p q = d.
Proof. intros Hd E. unfold euclid. rewrite E. apply sqrt_square. exact Hd. Qed.

Lemma euclid_same (p : Point) : euclid p p = 0.
Proof. apply euclid_eval; [lra | unfold Rsqr; ring]. Qed.

(** An object at the very position of an asteroid collides with it as
    soon as the two radii add up to something positive. *)
Lemma checkCollision_same_position (o : GameObject) (a : Asteroid) :
  position o = position a -> 0 < size o + size a -> checkCollision o a = true.
Proof.
  intros E H. rewrite checkCollision_euclid, E, euclid_same.
  apply ltb_true_iff. exact H.
Qed.

(** C5.  [checkCollision] holds exactly when the Euclidean distance of
    the two positions is strictly less than the sum of the two sizes:
    at a distance equal to the sum the objects do not collide, at a
    distance of the sum less any positive epsilon they do. *)
Theorem collision_iff_distance (o : GameObject) (a : Asteroid) :
  (checkCollision o a = true
   <-> euclid (position o) (position a) < size o + size a)
  /\ (euclid (position o) (position a) = size o + size a ->
      checkCollision o a = false)
  /\ (forall eps, 0 < eps ->
      euclid (position o) (position a) = size o + size a - eps ->
      checkCollision o a = true).
Proof.
  rewrite checkCollision_euclid. split; [| split].
  - apply ltb_true_iff.
  - intros E. apply ltb_false_iff. lra.
  - intros eps Heps E. apply ltb_true_iff. lra.
Qed.

(** At distance 50, radii 20 and 30 do not collide, radii 20 and 31 do. *)
Lemma collision_iff_distance_witness :
  checkCollision (createShip 0 0) (rock 30 40 0 0 30) = false
  /\ checkCollision (createShip 0 0) (rock 30 40 0 0 31) = true.
Proof.
  assert (E : forall s, euclid (position (createShip 0 0))
                               (position (rock 30 40 0 0 s)) = 50).
  { intros s. apply euclid_eval; [lra | simpl; unfold Rsqr; lra]. }
  split.
  - apply (proj1 (proj2 (collision_iff_distance (createShip 0 0) (rock 30 40 0 0 30)))).
    rewrite E. simpl. lra.
  - apply (proj2 (proj2 (collision_iff_distance (createShip 0 0) (rock 30 40 0 0 31))) 1).
    + lra.
    + rewrite E. simpl. lra.
Defined.

(** ** The collision resolver *)

Lemma evalState_bind_ret {A B : Type} (c : Rand A) (f : A -> B) (g : Rng) :
  evalState (a <- c ;; ret (f a)) g = f (evalState c g).
Proof.
  unfold evalState. simpl. destruct (runState c g). reflexivity.
Qed.

Lemma Array_from_length {A : Type} (n : nat) (c : Rand A) (g : Rng) :
  List.length (evalState (Array_from n c) g) = n.
Proof.
  revert g. induction n as [| n IH]; intros g; [reflexivity |].
  unfold evalState in *. simpl.
  destruct (runState c g) as [a g1].
  specialize (IH g1). destruct (runState (Array_from n c) g1) as [l g2].
  simpl in *. f_equal. exact IH.
Qed.

(** The traversal keeps the asteroids no bullet hits and adds 100 to the
    score for each of the others. *)
Lemma filterAsteroids_spec (bs : list Bullet) (l : list Asteroid) (sc : Z) :
  filterAsteroids bs l sc
  = (filter (fun a => negb (hitByBullet bs a)) l,
     (sc + 100 * Z.of_nat (List.length (filter (hitByBullet bs) l)))%Z).
Proof.
  revert sc. induction l as [| a l IH]; intros sc.
  - simpl. f_equal. lia.
  - cbn [filterAsteroids filter]. fold (hitByBullet bs a). rewrite IH.
    destruct (hitByBullet bs a); cbn [negb List.length]; f_equal; lia.
Qed.

(** The state [handleCollisions] returns, field by field. *)
Lemma resolve_fields (s : GameState) (g : Rng) :
  let remaining := filter (fun a => negb (hitByBullet (bullets s) a)) (asteroids s) in
  let destroyed := filter (hitByBullet (bullets s)) (asteroids s) in
  let dead := (lives s - 1 <=? 0)%Z in
  resolve s g =
  {| ship := if hasCollision s then (if dead then ship s else resetShip (ship s))
             else ship s;
     asteroids := match remaining with
                  | [] => evalState (Array_from 5 (createAsteroid 800 600)) g
                  | _ :: _ => remaining
                  end;
     bullets := bullets s;
     score := score s + 100 * Z.of_nat (List.length destroyed);
     lives := if hasCollision s then lives s - 1 else lives s;
     gameOver := hasCollision s && dead |}.
Proof.
  intros remaining destroyed dead.
  unfold resolve, handleCollisions. fold (hasCollision s).
  rewrite filterAsteroids_spec. fold remaining destroyed dead.
  destruct (hasCollision s), dead, remaining as [| a l];
    cbn [List.length Nat.eqb andb];
    first [ apply (evalState_bind_ret (Array_from 5 (createAsteroid 800 600)))
          | reflexivity ].
Qed.

Lemma hasCollision_In (s : GameState) (a : Asteroid) :
  In a (asteroids s) -> checkCollision (ship s) a = true -> hasCollision s = true.
Proof.
  intros Hin Hc. unfold hasCollision. apply existsb_exists.
  exists a. split; assumption.
Qed.

(** C3.  When the ship collides with an asteroid of the state (as it
    does when it sits at the very position of an asteroid and the two
    radii add up to something positive), [handleCollisions] returns
    [lives - 1]; if that is [<= 0] then [gameOver] is true and the ship
    is returned as it was, otherwise [gameOver] is false and the ship is
    at (400, 300) with velocity (0, 0) and rotation 0.  With [lives = 3]
    this gives [lives = 2], the reset ship and [gameOver = false]; with
    [lives = 1] it gives [lives = 0] and [gameOver = true]. *)
Theorem ship_collision (s : GameState) (g : Rng) (a : Asteroid) :
  In a (asteroids s) ->
  checkCollision (ship s) a = true
  \/ (position (ship s) = position a /\ 0 < size (ship s) + size a) ->
  let s' := resolve s g in
  lives s' = (lives s - 1)%Z
  /\ ((lives s - 1 <= 0)%Z -> gameOver s' = true /\ ship s' = ship s)
  /\ ((0 < lives s - 1)%Z ->
      gameOver s' = false
      /\ position (ship s') = {| x := 400; y := 300 |}
      /\ velocity (ship s') = {| x := 0; y := 0 |}
      /\ rotation (ship s') = 0)
  /\ (lives s = 3%Z ->
      lives s' = 2%Z /\ gameOver s' = false
      /\ position (ship s') = {| x := 400; y := 300 |}
      /\ velocity (ship s') = {| x := 0; y := 0 |}
      /\ rotation (ship s') = 0)
  /\ (lives s = 1%Z -> lives s' = 0%Z /\ gameOver s' = true).
Proof.
  intros Hin Hc s'.
  assert (Hhit : hasCollision s = true).
  { apply (hasCollision_In s a Hin).
    destruct Hc as [Hc | [Hp Hs]]; [exact Hc |].
    apply checkCollision_same_position; assumption. }
  subst s'. rewrite resolve_fields. cbn [ship lives gameOver].
  rewrite Hhit. cbn [andb].
  assert (Hdead : (lives s - 1 <= 0)%Z ->
                  ((lives s - 1 <=? 0)%Z = true)) by (intros; apply Z.leb_le; lia).
  assert (Halive : (0 < lives s - 1)%Z ->
                   ((lives s - 1 <=? 0)%Z = false)) by (intros; apply Z.leb_gt; lia).
  split; [reflexivity |]. split; [| split; [| split]].
  - intros H. rewrite (Hdead H). split; reflexivity.
  - intros H. rewrite (Halive H). repeat split; reflexivity.
  - intros H. rewrite Halive by lia. repeat split; try reflexivity. lia.
  - intros H. rewrite Hdead by lia. split; [lia | reflexivity].
Qed.

(** The ship on top of an asteroid with three lives left. *)
Lemma ship_collision_witness :
  let s' := resolve (crashState 3 false) halves in
  lives s' = 2%Z /\ gameOver s' = false
  /\ position (ship s') = {| x := 400; y := 300 |}
  /\ velocity (ship s') = {| x := 0; y := 0 |}
  /\ rotation (ship s') = 0.
Proof.
  apply (ship_collision (crashState 3 false) halves (rock 100 100 1 1 30)).
  - simpl. left. reflexivity.
  - right. split; [reflexivity | simpl; lra].
  - reflexivity.
Defined.

(** C9.  [handleCollisions] does not read the incoming [gameOver] flag:
    its result is the same whatever the flag, and from a state with
    [gameOver = true] in which the ship hits no asteroid, or in which
    [lives - 1] is still positive, it returns [gameOver = false]. *)
Theorem resolver_recomputes_gameOver (s : GameState) (g : Rng) :
  gameOver s = true ->
  hasCollision s = false \/ (0 < lives s - 1)%Z ->
  gameOver (resolve s g) = false
  /\ resolve s g = resolve (withGameOver false s) g.
Proof.
  intros _ H. split.
  - rewrite resolve_fields. cbn [gameOver].
    destruct H as [H | H].
    + rewrite H. reflexivity.
    + apply andb_false_iff. right. apply Z.leb_gt. exact H.
  - rewrite !resolve_fields. reflexivity.
Qed.

(** A state flagged game over with three lives left comes back from the
    resolver with the flag cleared. *)
Lemma resolver_recomputes_gameOver_witness :
  gameOver (crashState 3 true) = true
  /\ gameOver (resolve (crashState 3 true) halves) = false.
Proof.
  split; [reflexivity |].
  apply (resolver_recomputes_gameOver (crashState 3 true) halves).
  - reflexivity.
  - right. simpl. lia.
Defined.

(** C8.  Every call of [handleCollisions] returns the input score plus
    100 for each asteroid some bullet hits (once per asteroid, however
    many bullets hit it), so the score never decreases, and returns the
    bullet collection as it was: no bullet is consumed by a hit. *)
Theorem score_and_bullets (s : GameState) (g : Rng) :
  let s' := resolve s g in
  score s'
  = (score s
     + 100 * Z.of_nat (List.length (filter (hitByBullet (bullets s)) (asteroids s))))%Z
  /\ (score s <= score s')%Z
  /\ bullets s' = bullets s.
Proof.
  intros s'. subst s'. rewrite resolve_fields. cbn [score bullets].
  repeat split; try reflexivity. lia.
Qed.

(** C4.  After every call of [handleCollisions] the asteroid collection
    is not empty: when no input asteroid survives the bullets (in
    particular when there was none) it is the 5 asteroids that
    [createAsteroid 800 600] generates (all inside the 800 x 600 arena
    when the random draws lie in [[0, 1)]), otherwise it is the list of
    the survivors, which are asteroids of the input. *)
Theorem asteroids_never_empty (s : GameState) (g : Rng) :
  let remaining :=
    filter (fun a => negb (hitByBullet (bullets s) a)) (asteroids s) in
  let s' := resolve s g in
  asteroids s' <> []
  /\ (remaining = [] ->
      asteroids s' = evalState (Array_from 5 (createAsteroid 800 600)) g
      /\ List.length (asteroids s') = 5%nat)
  /\ (remaining <> [] -> asteroids s' = remaining)
  /\ incl remaining (asteroids s)
  /\ (asteroids s = [] -> List.length (asteroids s') = 5%nat)
  /\ (unitRng g -> remaining = [] ->
      Forall (fun a : Asteroid => inArena 800 600 a /\ 20 <= size a < 50)
             (asteroids s')).
Proof.
  intros remaining s'.
  assert (Hfresh : List.length (evalState (Array_from 5 (createAsteroid 800 600)) g)
                   = 5%nat) by apply Array_from_length.
  assert (E : asteroids s'
              = match remaining with
                | [] => evalState (Array_from 5 (createAsteroid 800 600)) g
                | _ :: _ => remaining
                end).
  { subst s'. rewrite resolve_fields. reflexivity. }
  assert (Hempty : remaining = [] -> List.length (asteroids s') = 5%nat).
  { intros H. rewrite E, H. exact Hfresh. }
  split; [| split; [| split; [| split; [| split]]]].
  - rewrite E. destruct remaining as [| a l]; [| discriminate].
    intros H. rewrite H in Hfresh. discriminate.
  - intros H. split; [rewrite E, H; reflexivity | auto].
  - intros H. rewrite E. destruct remaining; [contradiction | reflexivity].
  - apply incl_filter.
  - intros H. apply Hempty. subst remaining. rewrite H. reflexivity.
  - intros Hg H. rewrite E, H. apply refill_inArena. exact Hg.
Qed.

(** The previous state with the steered copy of its ship: the argument
    the updater passes to [updateGameObjects]. *)
(** ** The per-frame updater *)

Lemma nextState_gameOver (keys : Keys) (deltaTime : R) (prev : GameState) (g : Rng) :
  gameOver prev = true ->
  nextState keys deltaTime prev g
  = updateGameObjects (steered keys deltaTime prev) CANVAS_WIDTH CANVAS_HEIGHT.
Proof.
  intros H. unfold nextState, updaterState, steered. rewrite H. reflexivity.
Qed.

Lemma nextState_active (keys : Keys) (deltaTime : R) (prev : GameState) (g : Rng) :
  gameOver prev = false ->
  nextState keys deltaTime prev g
  = resolve (updateGameObjects (steered keys deltaTime prev)
                               CANVAS_WIDTH CANVAS_HEIGHT) g.
Proof.
  intros H. unfold nextState, updaterState, steered. rewrite H. reflexivity.
Qed.

(** ** Scenarios of the resolver *)

Lemma hitByBullet_same_position (b : Bullet) (bs : list Bullet) (a : Asteroid) :
  position b = position a -> 0 < size b + size a ->
  hitByBullet (b :: bs) a = true.
Proof.
  intros Hp Hs. unfold hitByBullet. cbn [existsb].
  rewrite (checkCollision_same_position b a Hp Hs). reflexivity.
Qed.

(** The only asteroid is shot: the field is refilled with five. *)
Lemma asteroids_never_empty_witness :
  (asteroids (resolve duelState halves)
   = evalState (Array_from 5 (createAsteroid 800 600)) halves
   /\ List.length (asteroids (resolve duelState halves)) = 5%nat)
  /\ Forall (fun a : Asteroid => inArena 800 600 a /\ 20 <= size a < 50)
            (asteroids (resolve duelState halves)).
Proof.
  assert (Hnone : filter (fun a => negb (hitByBullet (bullets duelState) a))
                         (asteroids duelState) = []).
  { cbn [asteroids bullets duelState sampleState filter].
    rewrite hitByBullet_same_position; [reflexivity | reflexivity | simpl; lra]. }
  pose proof (asteroids_never_empty duelState halves)
    as (_ & Hfresh & _ & _ & _ & Harena).
  split.
  - apply Hfresh. exact Hnone.
  - apply Harena; [apply halves_unit | exact Hnone].
Defined.

Lemma pileState_hits :
  hitByBullet (bullets pileState) (rock 100 100 1 1 30) = true
  /\ hitByBullet (bullets pileState) (rock 100 100 0 1 40) = true
  /\ hitByBullet (bullets pileState) (rock 400 500 0 0 20) = false.
Proof.
  change (bullets pileState) with [shot 100 100 7 0 60].
  split; [| split].
  - apply hitByBullet_same_position; [reflexivity | simpl; lra].
  - apply hitByBullet_same_position; [reflexivity | simpl; lra].
  - unfold hitByBullet. cbn [existsb]. rewrite checkCollision_euclid.
    rewrite (euclid_eval _ _ 500); [| lra | simpl; unfold Rsqr; lra].
    rewrite orb_false_r. apply ltb_false_iff. simpl. lra.
Qed.

Lemma pileState_remaining :
  filter (fun a => negb (hitByBullet (bullets pileState) a)) (asteroids pileState)
  = [rock 400 500 0 0 20].
Proof.
  destruct pileState_hits as (H1 & H2 & H3).
  change (asteroids pileState)
    with [rock 100 100 1 1 30; rock 100 100 0 1 40; rock 400 500 0 0 20].
  cbn [filter]. rewrite H1, H2, H3. reflexivity.
Qed.

Lemma pileState_destroyed :
  filter (hitByBullet (bullets pileState)) (asteroids pileState)
  = [rock 100 100 1 1 30; rock 100 100 0 1 40].
Proof.
  destruct pileState_hits as (H1 & H2 & H3).
  change (asteroids pileState)
    with [rock 100 100 1 1 30; rock 100 100 0 1 40; rock 400 500 0 0 20].
  cbn [filter]. rewrite H1, H2, H3. reflexivity.
Qed.

(** One bullet, two asteroids on top of each other and a third far
    away: both overlapping asteroids are destroyed by the one bullet,
    which stays in the collection. *)
Example one_bullet_two_asteroids :
  let s' := resolve pileState halves in
  asteroids s' = [rock 400 500 0 0 20] /\ bullets s' = bullets pileState.
Proof.
  rewrite resolve_fields. cbn [asteroids bullets].
  rewrite pileState_remaining. split; reflexivity.
Qed.

(** One bullet, two asteroids destroyed: 200 points, and the bullet stays. *)
Lemma score_and_bullets_witness :
  score (resolve pileState halves) = 200%Z
  /\ bullets (resolve pileState halves) = bullets pileState.
Proof.
  destruct (score_and_bullets pileState halves) as (Hs & _ & Hb).
  split; [| exact Hb].
  rewrite Hs, pileState_destroyed. reflexivity.
Defined.

(** * Further properties of the code *)

(** ** More on the entity factory *)

Lemma norm_scaled (r angle : R) :
  0 <= r ->
  sqrt (cos angle * r * (cos angle * r) + sin angle * r * (sin angle * r)) = r.
Proof.
  intros Hr.
  replace (cos angle * r * (cos angle * r) + sin angle * r * (sin angle * r))
    with ((Rsqr (sin angle) + Rsqr (cos angle)) * (r * r))
    by (unfold Rsqr; ring).
  rewrite sin2_cos2, Rmult_1_l. apply sqrt_square. exact Hr.
Qed.

(** Every vertex the loop pushes lies at 80% to 120% of [size] from the
    centre. *)
Lemma createVertices_radii (sz : R) (nv : Z) (i k : nat) (g : Rng) :
  0 < sz -> unitRng g ->
  Forall (fun v => 0.8 * sz <= sqrt (x v * x v + y v * y v) < 1.2 * sz)
         (fst (runState (createVertices sz nv i k) g)).
Proof.
  intros Hsz. revert i g. induction k as [| k IH]; intros i g Hg.
  - constructor.
  - cbn [createVertices runState bind ret Monad_state Math_random].
    assert (Hg' : unitRng (fun n => g (S n))) by (intros n; apply Hg).
    specialize (IH (S i) _ Hg').
    destruct (runState (createVertices sz nv (S i) k) (fun n => g (S n)))
      as [vs g'].
    cbn [fst] in *. constructor; [| exact IH].
    cbn [x y]. pose proof (Hg 0%nat) as H0.
    set (angle := INR i / IZR nv * PI * 2).
    replace (cos angle * sz * (g 0%nat * 0.4 + 0.8) *
             (cos angle * sz * (g 0%nat * 0.4 + 0.8)) +
             sin angle * sz * (g 0%nat * 0.4 + 0.8) *
             (sin angle * sz * (g 0%nat * 0.4 + 0.8)))
      with (cos angle * (sz * (g 0%nat * 0.4 + 0.8)) *
            (cos angle * (sz * (g 0%nat * 0.4 + 0.8))) +
            sin angle * (sz * (g 0%nat * 0.4 + 0.8)) *
            (sin angle * (sz * (g 0%nat * 0.4 + 0.8)))) by ring.
    rewrite norm_scaled; nra.
Qed.

(** X1.  With every random draw in [[0, 1)], [createAsteroid] returns an
    asteroid of size in [[20, 50)] with 7 to 11 vertices, each vertex at
    a distance of 80% to 120% of the size from the centre, a position
    inside the arena it is given, velocity components in [[-1, 1)] and a
    rotation in [[0, 2 PI)]. *)
Theorem createAsteroid_shape (W H : R) (g : Rng) :
  unitRng g -> 0 < W -> 0 < H ->
  let a := evalState (createAsteroid W H) g in
  20 <= size a < 50
  /\ (7 <= List.length (vertices a) <= 11)%nat
  /\ Forall (fun v => 0.8 * size a <= sqrt (x v * x v + y v * y v) < 1.2 * size a)
            (vertices a)
  /\ inArena W H a
  /\ (-1 <= x (velocity a) < 1 /\ -1 <= y (velocity a) < 1)
  /\ 0 <= rotation a < 2 * PI.
Proof.
  intros Hg HW HH a.
  destruct (createAsteroid_ranges W H g Hg) as (Hs & Hn & Ha & Hv & Hr & _).
  fold a in Hs, Hn, Ha, Hv, Hr.
  split; [exact Hs |]. split; [exact Hn |].
  split; [| split; [exact (Ha HW HH) | split; [exact Hv | exact Hr]]].
  clear Hs Hn Ha Hv Hr.
  subst a. unfold evalState, createAsteroid.
  cbn [runState bind ret Monad_state Math_random].
  pose proof (createVertices_radii (g 0%nat * 30 + 20) (Js.floor (g 1%nat * 5) + 7)
                0 (Z.to_nat (Js.floor (g 1%nat * 5) + 7))
                (fun n => g (S (S n)))) as Hrad.
  destruct (runState (createVertices _ _ _ _) _) as [vs g2].
  cbn [fst vertices size asteroid_obj] in *.
  apply Hrad; [pose proof (Hg 0%nat); lra | intros n; apply Hg].
Qed.

(** The centre of the arena, one run of the generator on [halves]. *)
Lemma createAsteroid_shape_witness :
  let a := evalState (createAsteroid 800 600) halves in
  20 <= size a < 50
  /\ (7 <= List.length (vertices a) <= 11)%nat
  /\ Forall (fun v => 0.8 * size a <= sqrt (x v * x v + y v * y v) < 1.2 * size a)
            (vertices a)
  /\ inArena 800 600 a
  /\ (-1 <= x (velocity a) < 1 /\ -1 <= y (velocity a) < 1)
  /\ 0 <= rotation a < 2 * PI.
Proof.
  apply (createAsteroid_shape 800 600 halves); [apply halves_unit | lra | lra].
Defined.

(** ** More on the motion integrator *)

Lemma wrapAxis_reenter (p d : R) :
  0 < d -> - d <= p < 2 * d -> wrapAxis p d = reenter p d.
Proof.
  intros Hd Hp. unfold reenter.
  destruct (Rlt_dec p 0) as [Hneg | Hpos].
  - apply (wrapAxis_eval _ _ _ 0); lra.
  - destruct (Rlt_dec p d) as [Hin | Hout].
    + apply (wrapAxis_eval _ _ _ 1); lra.
    + apply (wrapAxis_eval _ _ _ 2); lra.
Qed.

(** X2.  The arena is a torus.  When the position an object reaches
    before the wrap is less than one arena size outside the arena, the
    tick puts it at that position if it is inside, one width (height)
    further left (up) if it left by the right (bottom) edge and one
    width (height) further right (down) if it left by the left (top)
    edge.  This holds for the ship, for asteroids and for bullets. *)
Theorem tick_wraps_like_a_torus (W H : R) (sh : Ship) (a : Asteroid) (b : Bullet) :
  0 < W -> 0 < H ->
  let inReach (p : Point) := (- W <= x p < 2 * W) /\ (- H <= y p < 2 * H) in
  let back (p : Point) := {| x := reenter (x p) W; y := reenter (y p) H |} in
  (forall p, p = preWrap sh (velocity (updateShip sh W H)) ->
     inReach p -> position (updateShip sh W H) = back p)
  /\ (forall p, p = preWrap a (velocity a) ->
        inReach p -> position (updateAsteroid W H a) = back p)
  /\ (forall p, p = preWrap b (velocity b) ->
        inReach p -> position (updateBullet W H b) = back p).
Proof.
  intros HW HH inReach back.
  assert (Hback : forall p, inReach p ->
            {| x := wrapAxis (x p) W; y := wrapAxis (y p) H |} = back p).
  { intros p [Hx Hy]. unfold back.
    rewrite (wrapAxis_reenter _ _ HW Hx), (wrapAxis_reenter _ _ HH Hy).
    reflexivity. }
  split; [| split]; intros p Ep Hp; subst p.
  - rewrite updateShip_position. apply Hback. exact Hp.
  - rewrite updateAsteroid_position. apply Hback. exact Hp.
  - rewrite updateBullet_position. apply Hback. exact Hp.
Qed.

(** An asteroid leaving by the left edge comes back at the right one. *)
Lemma tick_wraps_like_a_torus_witness :
  position (updateAsteroid 800 600 (rock 0.5 10 (-1) 0 30))
  = {| x := 799.5; y := 10 |}.
Proof.
  pose proof (tick_wraps_like_a_torus 800 600 (createShip 400 300)
                (rock 0.5 10 (-1) 0 30) (shot 0 0 0 0 1)) as H.
  destruct H as (_ & Ha & _); [lra | lra |].
  rewrite (Ha _ eq_refl).
  - unfold reenter. cbn [preWrap rock position velocity asteroid_obj x y].
    destruct (Rlt_dec (0.5 + -1) 0); [| lra].
    destruct (Rlt_dec (10 + 0) 0); [lra |].
    destruct (Rlt_dec (10 + 0) 600); [| lra].
    f_equal; lra.
  - cbn [preWrap rock position velocity asteroid_obj x y]. split; lra.
Defined.

(** X3.  Over any number of ticks an asteroid turns by 0.02 radians per
    tick and keeps its velocity, size and vertices; no asteroid is added
    or removed and their order is kept. *)
Theorem asteroids_drift (n : nat) (s : GameState) (W H : R) :
  map (fun a : Asteroid => (rotation a, velocity a, size a, vertices a))
      (asteroids (ticks n W H s))
  = map (fun a : Asteroid =>
           (rotation a + 0.02 * INR n, velocity a, size a, vertices a))
        (asteroids s).
Proof.
  revert s. induction n as [| n IH]; intros s.
  - cbn [ticks]. apply map_ext. intros a.
    replace (rotation a + 0.02 * INR 0) with (rotation a) by (simpl; ring).
    reflexivity.
  - cbn [ticks]. rewrite IH, updateGameObjects_asteroids, map_map.
    apply map_ext. intros a. cbn [updateAsteroid rotation velocity size vertices
                                  asteroid_obj].
    replace (rotation a + 0.02 + 0.02 * INR n)
      with (rotation a + 0.02 * INR (S n)) by (rewrite S_INR; ring).
    reflexivity.
Qed.

(** *** Ship dynamics *)

Lemma speedOf_scale (v : Point) (k : R) :
  0 <= k -> speedOf {| x := x v * k; y := y v * k |} = k * speedOf v.
Proof.
  intros Hk. unfold speedOf. cbn [x y].
  replace (x v * k * (x v * k) + y v * k * (y v * k))
    with (k * k * (x v * x v + y v * y v)) by ring.
  rewrite sqrt_mult; [| nra | nra].
  rewrite sqrt_square by exact Hk. reflexivity.
Qed.

Lemma speedOf_applyFriction (v : Point) :
  speedOf (applyFriction v) = 0.99 * speedOf v.
Proof. unfold applyFriction. apply speedOf_scale. lra. Qed.

Lemma speedOf_limitSpeed (v : Point) :
  speedOf (limitSpeed v) = Rmin (speedOf v) maxSpeed.
Proof.
  unfold Rmin. destruct (Rle_dec (speedOf v) maxSpeed) as [H | H].
  - rewrite limitSpeed_slow; [reflexivity | exact H].
  - apply speedOf_limitSpeed_fast. lra.
Qed.

Lemma triangle_step (a b c s n m : R) :
  0 <= n -> 0 <= m ->
  n * n = a * a + b * b ->
  m * m = (a + c * 0.1) * (a + c * 0.1) + (b + s * 0.1) * (b + s * 0.1) ->
  s * s + c * c = 1 ->
  n - 0.1 <= m <= n + 0.1.
Proof.
  intros Hn0 Hm0 Hn Hm Hsc.
  assert (Hsq : 0 <= (a * s - b * c) * (a * s - b * c)) by apply Rle_0_sqr.
  assert (Hcs : (a * c + b * s) * (a * c + b * s) <= n * n).
  { replace (n * n) with ((a * a + b * b) * (s * s + c * c))
      by (rewrite Hsc, Hn; ring).
    lra. }
  assert (Habs : - n <= a * c + b * s <= n) by (split; nra).
  assert (Hm2 : m * m = n * n + 0.2 * (a * c + b * s) + 0.01).
  { rewrite Hm, Hn.
    replace 0.01 with (0.01 * (s * s + c * c)) by (rewrite Hsc; lra). lra. }
  split.
  - destruct (Rle_dec (n - 0.1) m) as [|Hc]; [assumption |].
    exfalso. assert (m < n - 0.1) by lra. nra.
  - destruct (Rle_dec m (n + 0.1)) as [|Hc]; [assumption |].
    exfalso. assert (n + 0.1 < m) by lra. nra.
Qed.

(** Adding a vector of length 0.1 changes the length by at most 0.1. *)
Lemma speedOf_applyThrust (sh : Ship) :
  speedOf (velocity sh) - 0.1 <= speedOf (applyThrust sh)
  <= speedOf (velocity sh) + 0.1.
Proof.
  unfold applyThrust. destruct (thrusting sh); [| lra].
  apply (triangle_step (x (velocity sh)) (y (velocity sh))
           (cos (rotation sh)) (sin (rotation sh))).
  - apply speedOf_nonneg.
  - apply speedOf_nonneg.
  - apply speedOf_sqr.
  - apply speedOf_sqr.
  - apply sin2_cos2.
Qed.

(** X4.  After a tick the speed of the ship is the smaller of 5 and 0.99
    times its speed after thrust; thrust changes the speed by at most
    0.1, so a tick never adds more than 0.99 * 0.1 to the speed. *)
Theorem ship_speed_after_tick (sh : Ship) (W H : R) :
  let v' := velocity (updateShip sh W H) in
  speedOf v' = Rmin (0.99 * speedOf (applyThrust sh)) 5
  /\ speedOf (velocity sh) - 0.1 <= speedOf (applyThrust sh)
     <= speedOf (velocity sh) + 0.1
  /\ speedOf v' <= 0.99 * (speedOf (velocity sh) + 0.1).
Proof.
  intros v'.
  assert (E : speedOf v' = Rmin (0.99 * speedOf (applyThrust sh)) 5).
  { change v' with (limitSpeed (applyFriction (applyThrust sh))).
    rewrite speedOf_limitSpeed, speedOf_applyFriction. reflexivity. }
  pose proof (speedOf_applyThrust sh) as Ht.
  split; [exact E |]. split; [exact Ht |].
  rewrite E. pose proof (Rmin_l (0.99 * speedOf (applyThrust sh)) 5). lra.
Qed.

Lemma limitSpeed_direction (v : Point) :
  exists k, 0 < k <= 1 /\ x (limitSpeed v) = k * x v /\ y (limitSpeed v) = k * y v.
Proof.
  destruct (Rlt_dec maxSpeed (speedOf v)) as [H | H].
  - rewrite (limitSpeed_fast v H). unfold maxSpeed in *.
    exists (5 / speedOf v). cbn [x y].
    assert (0 < / speedOf v) by (apply Rinv_0_lt_compat; lra).
    assert (speedOf v * / speedOf v = 1) by (apply Rinv_r; lra).
    unfold Rdiv. repeat split; try ring; nra.
  - rewrite limitSpeed_slow by lra. exists 1. repeat split; lra.
Qed.

Lemma updateShip_coasting (sh : Ship) (W H : R) :
  thrusting sh = false ->
  velocity (updateShip sh W H) = limitSpeed (applyFriction (velocity sh))
  /\ thrusting (updateShip sh W H) = false.
Proof.
  intros Ht. split.
  - change (velocity (updateShip sh W H))
      with (limitSpeed (applyFriction (applyThrust sh))).
    unfold applyThrust. rewrite Ht. reflexivity.
  - exact Ht.
Qed.

Lemma coasting_speed_ticks (n : nat) (s : GameState) (W H : R) :
  thrusting (ship s) = false ->
  speedOf (velocity (ship s)) <= maxSpeed ->
  thrusting (ship (ticks n W H s)) = false
  /\ speedOf (velocity (ship (ticks n W H s)))
     = 0.99 ^ n * speedOf (velocity (ship s)).
Proof.
  revert s. induction n as [| n IH]; intros s Ht Hs.
  - cbn [ticks]. split; [exact Ht | simpl; ring].
  - cbn [ticks].
    destruct (updateShip_coasting (ship s) W H Ht) as [Ev Et].
    assert (Es : speedOf (velocity (ship (updateGameObjects s W H)))
                 = 0.99 * speedOf (velocity (ship s))).
    { change (ship (updateGameObjects s W H)) with (updateShip (ship s) W H).
      rewrite Ev, limitSpeed_slow; rewrite speedOf_applyFriction.
      - reflexivity.
      - pose proof (speedOf_nonneg (velocity (ship s))). lra. }
    destruct (IH (updateGameObjects s W H)) as [IHt IHs].
    + exact Et.
    + rewrite Es. pose proof (speedOf_nonneg (velocity (ship s))). lra.
    + split; [exact IHt |]. rewrite IHs, Es. simpl. ring.
Qed.

(** X5.  A ship whose engine is off keeps its heading through a tick:
    its velocity is multiplied by a factor in [(0, 0.99]]; and when its
    speed is at most 5, its speed after [n] ticks is [0.99 ^ n] times
    its speed. *)
Theorem coasting_ship_slows_down (s : GameState) (W H : R) :
  thrusting (ship s) = false ->
  (exists k, 0 < k <= 0.99
     /\ x (velocity (ship (updateGameObjects s W H))) = k * x (velocity (ship s))
     /\ y (velocity (ship (updateGameObjects s W H))) = k * y (velocity (ship s)))
  /\ (speedOf (velocity (ship s)) <= 5 ->
      forall n, speedOf (velocity (ship (ticks n W H s)))
                = 0.99 ^ n * speedOf (velocity (ship s))).
Proof.
  intros Ht. split.
  - change (ship (updateGameObjects s W H)) with (updateShip (ship s) W H).
    destruct (updateShip_coasting (ship s) W H Ht) as [Ev _]. rewrite Ev.
    destruct (limitSpeed_direction (applyFriction (velocity (ship s))))
      as (k & Hk & Hx & Hy).
    exists (k * 0.99). rewrite Hx, Hy. unfold applyFriction. cbn [x y].
    repeat split; try ring; nra.
  - intros Hs n. apply coasting_speed_ticks; assumption.
Qed.

Lemma coastingShip_speed : speedOf (velocity coastingShip) = 5.
Proof.
  unfold speedOf. cbn [coastingShip velocity ship_obj x y].
  replace (3 * 3 + 4 * 4) with (5 * 5) by lra. apply sqrt_square. lra.
Qed.

(** Ten ticks at rest of the engine take the speed from 5 to
    [0.99 ^ 10 * 5]. *)
Lemma coasting_ship_slows_down_witness :
  speedOf (velocity (ship (ticks 10 800 600 coastingState))) = 0.99 ^ 10 * 5.
Proof.
  rewrite <- coastingShip_speed.
  apply (proj2 (coasting_ship_slows_down coastingState 800 600 eq_refl)).
  change (ship coastingState) with coastingShip.
  rewrite coastingShip_speed. lra.
Defined.

(** ** More on the collision predicate *)

Lemma euclid_nonneg (p q : Point) : 0 <= euclid p q.
Proof. apply sqrt_pos. Qed.

Lemma euclid_sym (p q : Point) : euclid p q = euclid q p.
Proof.
  unfold euclid. f_equal. unfold Rsqr. ring.
Qed.

(** X6.  [checkCollision] looks at the two positions and the sum of the
    two sizes only.  It is false whenever the sizes add up to zero or
    less, even for two objects at the same position; it does not change
    when the two positions are exchanged; and a collision stays one when
    the sizes grow.  Velocity, rotation and vertices play no part. *)
Theorem collision_depends_on_circles (o o' : GameObject) (a a' : Asteroid) :
  (size o + size a <= 0 -> checkCollision o a = false)
  /\ (position o' = position a -> position a' = position o ->
      size o' + size a' = size o + size a ->
      checkCollision o' a' = checkCollision o a)
  /\ (position o' = position o -> position a' = position a ->
      size o + size a <= size o' + size a' ->
      checkCollision o a = true -> checkCollision o' a' = true).
Proof.
  rewrite !checkCollision_euclid. split; [| split].
  - intros H. apply ltb_false_iff.
    pose proof (euclid_nonneg (position o) (position a)). lra.
  - intros Ho Ha Hs. rewrite Ho, Ha, Hs, euclid_sym. reflexivity.
  - intros Ho Ha Hs Hc. rewrite Ho, Ha.
    apply ltb_true_iff. apply ltb_true_iff in Hc. lra.
Qed.

(** Two objects of size zero at the same place do not collide. *)
Lemma collision_depends_on_circles_witness :
  checkCollision (mkGameObject (mkPoint 1 2) (mkPoint 0 0) 0 0) (rock 1 2 0 0 0)
  = false.
Proof.
  apply (proj1 (collision_depends_on_circles
                  (mkGameObject (mkPoint 1 2) (mkPoint 0 0) 0 0)
                  (mkGameObject (mkPoint 1 2) (mkPoint 0 0) 0 0)
                  (rock 1 2 0 0 0) (rock 1 2 0 0 0))).
  simpl. lra.
Defined.

(** ** More on the collision resolver *)

Lemma filter_length_split {A : Type} (f : A -> bool) (l : list A) :
  (List.length (filter f l) + List.length (filter (fun a => negb (f a)) l)
   = List.length l)%nat.
Proof.
  induction l as [| a l IH]; [reflexivity |].
  cbn [filter]. destruct (f a); cbn [negb List.length]; lia.
Qed.

Lemma filter_none {A : Type} (f : A -> bool) (l : list A) :
  (forall a, In a l -> f a = false) -> filter f l = [].
Proof.
  induction l as [| a l IH]; intros H; [reflexivity |].
  cbn [filter]. rewrite (H a (or_introl eq_refl)).
  apply IH. intros b Hb. apply H. right. exact Hb.
Qed.

Lemma filter_all {A : Type} (f : A -> bool) (l : list A) :
  (forall a, In a l -> f a = true) -> filter f l = l.
Proof.
  induction l as [| a l IH]; intros H; [reflexivity |].
  cbn [filter]. rewrite (H a (or_introl eq_refl)). f_equal.
  apply IH. intros b Hb. apply H. right. exact Hb.
Qed.

(** X7.  A ship collision costs one life however many asteroids touch
    the ship, and never more than one life is lost in a call; the
    resolver never removes an asteroid because the ship hit it: with no
    bullet in flight and at least one asteroid, the asteroids and the
    score come back unchanged. *)
Theorem ship_hit_costs_one_life (s : GameState) (g : Rng) :
  let s' := resolve s g in
  (lives s - 1 <= lives s' <= lives s)%Z
  /\ (lives s' = lives s - 1 <-> hasCollision s = true)%Z
  /\ (bullets s = [] -> asteroids s <> [] ->
      asteroids s' = asteroids s /\ score s' = score s).
Proof.
  intros s'. subst s'. rewrite resolve_fields. cbn [lives asteroids score].
  split; [| split].
  - destruct (hasCollision s); lia.
  - destruct (hasCollision s); split; intros; try reflexivity;
      try lia; discriminate.
  - intros Hb Hne. rewrite Hb.
    assert (Hkeep : filter (fun a => negb (hitByBullet [] a)) (asteroids s)
                    = asteroids s).
    { apply filter_all. reflexivity. }
    assert (Hnone : filter (hitByBullet []) (asteroids s) = []).
    { apply filter_none. reflexivity. }
    rewrite Hkeep, Hnone. destruct (asteroids s); [contradiction |].
    split; [reflexivity | simpl; lia].
Qed.

(** The ship sits on the only asteroid and nothing is fired: one life
    is lost, the asteroid stays. *)
Lemma ship_hit_costs_one_life_witness :
  asteroids (resolve (crashState 3 false) halves) = asteroids (crashState 3 false)
  /\ score (resolve (crashState 3 false) halves) = score (crashState 3 false).
Proof.
  apply (proj2 (proj2 (ship_hit_costs_one_life (crashState 3 false) halves))).
  - reflexivity.
  - discriminate.
Defined.

(** X8.  When some asteroid survives the bullets, the asteroids
    returned are the input asteroids that no bullet hits, in their input
    order, and the score gained is 100 times the number of asteroids
    that disappeared; resolving the returned state again changes neither
    its asteroids nor its score. *)
Theorem survivors_and_score (s : GameState) (g g' : Rng) :
  let s' := resolve s g in
  filter (fun a => negb (hitByBullet (bullets s) a)) (asteroids s) <> [] ->
  asteroids s' = filter (fun a => negb (hitByBullet (bullets s) a)) (asteroids s)
  /\ Forall (fun a => hitByBullet (bullets s') a = false) (asteroids s')
  /\ (score s' - score s
      = 100 * (Z.of_nat (List.length (asteroids s))
               - Z.of_nat (List.length (asteroids s'))))%Z
  /\ asteroids (resolve s' g') = asteroids s'
  /\ score (resolve s' g') = score s'.
Proof.
  intros s' Hne.
  set (rem := filter (fun a => negb (hitByBullet (bullets s) a)) (asteroids s)) in *.
  assert (Ea : asteroids s' = rem).
  { subst s'. rewrite resolve_fields. cbn [asteroids]. fold rem.
    destruct rem; [contradiction | reflexivity]. }
  assert (Eb : bullets s' = bullets s).
  { subst s'. rewrite resolve_fields. reflexivity. }
  assert (Es : score s' = (score s + 100 * Z.of_nat
                 (List.length (filter (hitByBullet (bullets s)) (asteroids s))))%Z).
  { subst s'. rewrite resolve_fields. reflexivity. }
  assert (Hun : forall a, In a rem -> hitByBullet (bullets s) a = false).
  { intros a Ha. apply filter_In in Ha. destruct Ha as [_ Ha].
    apply negb_true_iff. exact Ha. }
  split; [exact Ea |]. split; [| split; [| split]].
  - rewrite Ea, Eb. apply Forall_forall. exact Hun.
  - rewrite Ea, Es.
    pose proof (filter_length_split (hitByBullet (bullets s)) (asteroids s)) as Hl.
    fold rem in Hl. lia.
  - rewrite resolve_fields. cbn [asteroids]. rewrite Ea, Eb.
    rewrite filter_all.
    + destruct rem; [contradiction | reflexivity].
    + intros a Ha. rewrite (Hun a Ha). reflexivity.
  - rewrite resolve_fields. cbn [score]. rewrite Ea, Eb.
    rewrite filter_none by exact Hun. simpl. lia.
Qed.

(** In [pileState] two of three asteroids go: 200 points. *)
Lemma survivors_and_score_witness :
  asteroids (resolve pileState halves) = [rock 400 500 0 0 20]
  /\ (score (resolve pileState halves) - score pileState = 100 * (3 - 1))%Z.
Proof.
  destruct (survivors_and_score pileState halves halves) as (Ha & _ & Hs & _).
  - rewrite pileState_remaining. discriminate.
  - split.
    + rewrite Ha. apply pileState_remaining.
    + rewrite Hs, Ha, pileState_remaining. reflexivity.
Defined.

(** ** The updaters of the [Game] component *)

(** X9.  [shoot] does nothing when the state its closure sees is game
    over (whatever the latest state is); otherwise it appends exactly
    one bullet behind the bullets of the latest state: at the position
    of the closure's ship, flying at speed 7 along its heading, of size
    2 and lifespan 60.  Nothing else of the latest state changes. *)
Theorem shoot_appends_one_bullet (gs prev : GameState) :
  (gameOver gs = true -> shoot gs prev = prev)
  /\ (gameOver gs = false ->
      exists b : Bullet,
        bullets (shoot gs prev) = bullets prev ++ [b]
        /\ position b = position (ship gs)
        /\ x (velocity b) = 7 * cos (rotation (ship gs))
        /\ y (velocity b) = 7 * sin (rotation (ship gs))
        /\ speedOf (velocity b) = 7
        /\ size b = 2 /\ lifespan b = 60%Z
        /\ ship (shoot gs prev) = ship prev
        /\ asteroids (shoot gs prev) = asteroids prev
        /\ score (shoot gs prev) = score prev
        /\ lives (shoot gs prev) = lives prev
        /\ gameOver (shoot gs prev) = gameOver prev).
Proof.
  split; intros H; unfold shoot; rewrite H; [reflexivity |].
  eexists. split; [reflexivity |].
  cbn [position velocity size lifespan bullet_obj x y ship asteroids score lives
       gameOver].
  repeat split; try ring.
  unfold speedOf. cbn [x y]. apply norm_scaled. lra.
Qed.

(** The first shot of a session: one bullet, at the centred ship. *)
Lemma shoot_appends_one_bullet_witness :
  exists b : Bullet,
    bullets oneShotState = [] ++ [b]
    /\ position b = {| x := 400; y := 300 |}
    /\ speedOf (velocity b) = 7.
Proof.
  destruct (proj2 (shoot_appends_one_bullet
                     (sampleState (createShip 400 300) [] [] 3 false)
                     (sampleState (createShip 400 300) [] [] 3 false)) eq_refl)
    as (b & Hb & Hp & _ & _ & Hs & _).
  exists b. split; [exact Hb |]. split; [exact Hp | exact Hs].
Defined.

(** X10.  Steering changes only the rotation and the [thrusting] flag of
    the ship.  With both arrow keys held, or neither, the rotation is
    unchanged; and steering twice with the same keys for [d1] and [d2]
    turns the ship as steering once for [d1 + d2]. *)
Theorem steering_turns_only (keys : Keys) (d1 d2 : R) (sh : Ship) :
  position (steerShip keys d1 sh) = position sh
  /\ velocity (steerShip keys d1 sh) = velocity sh
  /\ size (steerShip keys d1 sh) = size sh
  /\ thrusting (steerShip keys d1 sh) = has keys "ArrowUp"
  /\ (has keys "ArrowLeft" = has keys "ArrowRight" ->
      rotation (steerShip keys d1 sh) = rotation sh)
  /\ steerShip keys d2 (steerShip keys d1 sh) = steerShip keys (d1 + d2) sh.
Proof.
  repeat (split; [reflexivity |]). split.
  - intros H. unfold steerShip. cbn [rotation ship_obj]. rewrite H.
    destruct (has keys "ArrowRight"); ring.
  - unfold steerShip. cbn [rotation position velocity size ship_obj].
    f_equal. f_equal.
    destruct (has keys "ArrowLeft"), (has keys "ArrowRight"); ring.
Qed.

(** Left and right held together for one frame unit. *)
Lemma steering_turns_only_witness :
  rotation (steerShip ["ArrowLeft"; "ArrowRight"]%string 1 (createShip 400 300)) = 0.
Proof.
  apply (proj1 (proj2 (proj2 (proj2 (proj2
           (steering_turns_only ["ArrowLeft"; "ArrowRight"]%string 1 1
              (createShip 400 300))))))).
  reflexivity.
Defined.

(** X11.  [deltaTime] reaches the frame through the rotation of the ship
    only: when neither the left nor the right arrow key is held, the
    frame returns the same state and leaves the same random source for
    any two values of [deltaTime]; thrust, friction and motion are not
    scaled by it. *)
Theorem deltaTime_only_turns (keys : Keys) (d1 d2 : R) (prev : GameState) (g : Rng) :
  has keys "ArrowLeft" = false -> has keys "ArrowRight" = false ->
  runState (gameLoopStep keys d1 prev) g = runState (gameLoopStep keys d2 prev) g.
Proof.
  intros Hl Hr.
  assert (E : forall d, steerShip keys d (ship prev)
                        = steerShip keys 0 (ship prev)).
  { intros d. unfold steerShip. rewrite Hl, Hr. reflexivity. }
  unfold gameLoopStep, updaterState. rewrite (E d1), (E d2). reflexivity.
Qed.

(** Only the up arrow held: a slow frame and a fast frame give the same
    state. *)
Lemma deltaTime_only_turns_witness :
  frame ["ArrowUp"%string] 1 coastingState halves
  = frame ["ArrowUp"%string] 3 coastingState halves.
Proof.
  unfold frame, evalState.
  rewrite (deltaTime_only_turns ["ArrowUp"%string] 1 3 coastingState halves
             eq_refl eq_refl).
  reflexivity.
Defined.

(** ** Sessions: what every state of a run satisfies *)

Lemma execState_bind_ret {A B : Type} (c : Rand A) (f : A -> B) (g : Rng) :
  execState (a <- c ;; ret (f a)) g = execState c g.
Proof.
  unfold execState. simpl. destruct (runState c g). reflexivity.
Qed.

Lemma Array_from_tail {A : Type} (c : Rand A) (n : nat) (g : Rng) :
  (forall g0, unitRng g0 -> tailOf g0 (execState c g0)) ->
  unitRng g -> tailOf g (execState (Array_from n c) g).
Proof.
  intros Hc. revert g. induction n as [| n IH]; intros g Hg.
  - apply tailOf_refl.
  - unfold execState in *.
    cbn [Array_from runState bind ret Monad_state].
    pose proof (Hc g Hg) as Ht.
    destruct (runState c g) as [a g1]. cbn [snd] in *.
    specialize (IH g1 (tailOf_unit g g1 Hg Ht)).
    destruct (runState (Array_from n c) g1) as [l g2]. cbn [snd] in *.
    apply (tailOf_trans g g1 g2); assumption.
Qed.

Lemma createAsteroid_tail (W H : R) (g : Rng) :
  unitRng g -> tailOf g (execState (createAsteroid W H) g).
Proof. intros Hg. apply (createAsteroid_ranges W H g Hg). Qed.

Lemma refill_tail (n : nat) (W H : R) (g : Rng) :
  unitRng g -> tailOf g (execState (Array_from n (createAsteroid W H)) g).
Proof. apply Array_from_tail. intros g0. apply createAsteroid_tail. Qed.

(** The random source after [handleCollisions]: untouched unless the
    field is refilled. *)
Lemma handleCollisions_source (s : GameState) (g : Rng) :
  execState (handleCollisions s) g
  = match filter (fun a => negb (hitByBullet (bullets s) a)) (asteroids s) with
    | [] => execState (Array_from 5 (createAsteroid 800 600)) g
    | _ :: _ => g
    end.
Proof.
  unfold handleCollisions. fold (hasCollision s).
  rewrite filterAsteroids_spec.
  destruct (hasCollision s), (lives s - 1 <=? 0)%Z,
    (filter (fun a => negb (hitByBullet (bullets s) a)) (asteroids s));
    cbn [List.length Nat.eqb];
    first [ apply (execState_bind_ret (Array_from 5 (createAsteroid 800 600)))
          | reflexivity ].
Qed.

Lemma handleCollisions_tail (s : GameState) (g : Rng) :
  unitRng g -> tailOf g (execState (handleCollisions s) g).
Proof.
  intros Hg. rewrite handleCollisions_source.
  destruct (filter _ _); [apply refill_tail; exact Hg | apply tailOf_refl].
Qed.

Lemma initialState_tail (g : Rng) :
  unitRng g -> tailOf g (execState initialState g).
Proof.
  intros Hg. unfold initialState.
  rewrite (execState_bind_ret
             (Array_from INITIAL_ASTEROIDS (createAsteroid CANVAS_WIDTH CANVAS_HEIGHT))).
  apply refill_tail. exact Hg.
Qed.

Lemma handleEvent_tail (e : Event) (s : GameState) (g : Rng) :
  unitRng g -> tailOf g (execState (handleEvent e s) g).
Proof.
  intros Hg. destruct e as [keys dt | gs |]; cbn [handleEvent].
  - unfold updaterState. destruct (gameOver s).
    + apply tailOf_refl.
    + apply handleCollisions_tail. exact Hg.
  - apply tailOf_refl.
  - apply initialState_tail. exact Hg.
Qed.

Lemma run_cons (e : Event) (es : list Event) (s : GameState) (g : Rng) :
  runState (run (e :: es) s) g
  = runState (run es (evalState (handleEvent e s) g))
             (execState (handleEvent e s) g).
Proof.
  unfold evalState, execState. cbn [run runState bind Monad_state].
  destruct (runState (handleEvent e s) g). reflexivity.
Qed.

(** A property that the initial state has and every event keeps holds
    after every session. *)
Lemma run_invariant (Inv : GameState -> Prop) (Ok : Event -> Prop) :
  (forall e s g, unitRng g -> Ok e -> Inv s -> Inv (evalState (handleEvent e s) g)) ->
  forall es s g, unitRng g -> Forall Ok es -> Inv s ->
                 Inv (evalState (run es s) g).
Proof.
  intros Hstep es. induction es as [| e es IH]; intros s g Hg Hok Hs.
  - exact Hs.
  - unfold evalState. rewrite run_cons. inversion Hok as [| e' es' He Hes]; subst.
    apply IH.
    + apply (tailOf_unit g); [exact Hg | apply handleEvent_tail; exact Hg].
    + exact Hes.
    + apply Hstep; assumption.
Qed.

Lemma play_invariant (Inv : GameState -> Prop) (Ok : Event -> Prop) :
  (forall g, unitRng g -> Inv (evalState initialState g)) ->
  (forall e s g, unitRng g -> Ok e -> Inv s -> Inv (evalState (handleEvent e s) g)) ->
  forall es g, unitRng g -> Forall Ok es -> Inv (evalState (play es) g).
Proof.
  intros Hinit Hstep es g Hg Hok.
  unfold play, evalState. cbn [runState bind Monad_state].
  pose proof (Hinit g Hg) as H0. pose proof (initialState_tail g Hg) as Ht.
  unfold evalState, execState in H0, Ht.
  destruct (runState initialState g) as [s0 g0]. cbn [fst snd] in *.
  apply (run_invariant Inv Ok Hstep es s0 g0); try assumption.
  apply (tailOf_unit g); assumption.
Qed.

Lemma run_invariant_any (Inv : GameState -> Prop) (Ok : Event -> Prop) :
  (forall e s g, Ok e -> Inv s -> Inv (evalState (handleEvent e s) g)) ->
  forall es s g, Forall Ok es -> Inv s -> Inv (evalState (run es s) g).
Proof.
  intros Hstep es. induction es as [| e es IH]; intros s g Hok Hs.
  - exact Hs.
  - unfold evalState. rewrite run_cons. inversion Hok as [| e' es' He Hes]; subst.
    apply IH; [exact Hes |]. apply Hstep; assumption.
Qed.

Lemma play_run (es : list Event) (g : Rng) :
  evalState (play es) g
  = evalState (run es (evalState initialState g)) (execState initialState g).
Proof.
  unfold play, evalState, execState. cbn [runState bind Monad_state].
  destruct (runState initialState g). reflexivity.
Qed.

Lemma initialState_fields (g : Rng) :
  evalState initialState g
  = {| ship := createShip (CANVAS_WIDTH / 2) (CANVAS_HEIGHT / 2);
       asteroids := evalState (Array_from INITIAL_ASTEROIDS
                                 (createAsteroid CANVAS_WIDTH CANVAS_HEIGHT)) g;
       bullets := []; score := 0; lives := INITIAL_LIVES; gameOver := false |}.
Proof.
  unfold initialState.
  apply (evalState_bind_ret
           (Array_from INITIAL_ASTEROIDS (createAsteroid CANVAS_WIDTH CANVAS_HEIGHT))).
Qed.

(** What an event does to the state, case by case. *)
Lemma handleEvent_cases (e : Event) (s : GameState) (g : Rng) :
  evalState (handleEvent e s) g
  = match e with
    | Tick keys dt =>
        let moved := updateGameObjects (steered keys dt s) CANVAS_WIDTH CANVAS_HEIGHT in
        if gameOver s then moved else resolve moved g
    | Fire gs => shoot gs s
    | PlayAgain => evalState initialState g
    end.
Proof.
  destruct e as [keys dt | gs |]; cbn [handleEvent]; try reflexivity.
  destruct (gameOver s) eqn:E.
  - apply (nextState_gameOver keys dt s g E).
  - apply (nextState_active keys dt s g E).
Qed.

Lemma shoot_frame (gs s : GameState) :
  ship (shoot gs s) = ship s /\ asteroids (shoot gs s) = asteroids s
  /\ score (shoot gs s) = score s /\ lives (shoot gs s) = lives s
  /\ gameOver (shoot gs s) = gameOver s.
Proof. unfold shoot. destruct (gameOver gs); repeat split. Qed.

Lemma livesOK_step (e : Event) (s : GameState) (g : Rng) :
  livesOK s -> livesOK (evalState (handleEvent e s) g).
Proof.
  intros [Hr Hg]. rewrite handleEvent_cases. unfold livesOK, INITIAL_LIVES in *.
  destruct e as [keys dt | gs |].
  - cbn zeta. destruct (gameOver s) eqn:E.
    + cbn [lives gameOver updateGameObjects steered]. rewrite E. tauto.
    + rewrite resolve_fields. cbn [lives gameOver updateGameObjects steered].
      assert (lives s <> 0%Z) by (intros H0; apply Hg in H0; discriminate).
      set (hit := hasCollision _). destruct hit; cbn [andb].
      * destruct (Z.leb_spec (lives s - 1) 0); split; try lia;
          split; intros; try reflexivity; try discriminate; lia.
      * split; [lia |]. split; intros; [discriminate | contradiction].
  - destruct (shoot_frame gs s) as (_ & _ & _ & El & Eg). rewrite El, Eg. tauto.
  - rewrite initialState_fields. cbn [lives gameOver]. unfold INITIAL_LIVES.
    split; [lia |]. split; intros; discriminate.
Qed.

Lemma lives_step (e : Event) (s : GameState) (g : Rng) :
  noRestart e -> (lives (evalState (handleEvent e s) g) <= lives s)%Z.
Proof.
  intros He. rewrite handleEvent_cases.
  destruct e as [keys dt | gs |]; [| | contradiction].
  - cbn zeta. destruct (gameOver s).
    + cbn [lives updateGameObjects steered]. lia.
    + rewrite resolve_fields. cbn [lives updateGameObjects steered].
      destruct (hasCollision _); lia.
  - destruct (shoot_frame gs s) as (_ & _ & _ & El & _). rewrite El. lia.
Qed.

(** X12.  In every session, whatever the events and the random draws,
    the lives stay between 0 and 3 and [gameOver] is true exactly when
    no life is left; and as long as "Play Again" is not clicked the
    lives never go up. *)
Theorem lives_and_gameOver (es : list Event) (s : GameState) (g : Rng) :
  livesOK (evalState (play es) g)
  /\ (Forall noRestart es -> (lives (evalState (run es s) g) <= lives s)%Z).
Proof.
  split.
  - rewrite play_run.
    apply (run_invariant_any livesOK (fun _ => True)).
    + intros e s0 g0 _. apply livesOK_step.
    + apply Forall_forall. trivial.
    + rewrite initialState_fields. unfold livesOK, INITIAL_LIVES.
      cbn [lives gameOver]. split; [lia |]. split; intros; discriminate.
  - intros Hno.
    apply (run_invariant_any (fun s' => (lives s' <= lives s)%Z) noRestart);
      [| exact Hno | lia].
    intros e s0 g0 He H0. pose proof (lives_step e s0 g0 He). lia.
Qed.

(** The ship sits on an asteroid with one life left: after the frame no
    life is left, and it stays so through further frames and shots. *)
Lemma lives_and_gameOver_witness :
  (lives (evalState (run [Tick [] 1; Fire (crashState 1 false); Tick [] 1]
                         (crashState 1 false)) halves)
   <= lives (crashState 1 false))%Z.
Proof.
  apply (proj2 (lives_and_gameOver
                  [Tick [] 1; Fire (crashState 1 false); Tick [] 1]
                  (crashState 1 false) halves)).
  repeat constructor.
Defined.

Lemma gameOver_step (e : Event) (s : GameState) (g : Rng) :
  noRestart e -> gameOver s = true ->
  let s' := evalState (handleEvent e s) g in
  gameOver s' = true /\ score s' = score s /\ lives s' = lives s
  /\ map (fun a : Asteroid => (velocity a, size a, vertices a)) (asteroids s')
     = map (fun a : Asteroid => (velocity a, size a, vertices a)) (asteroids s)
  /\ execState (handleEvent e s) g = g.
Proof.
  intros He Hover s'. subst s'. rewrite handleEvent_cases.
  destruct e as [keys dt | gs |]; [| | contradiction].
  - cbn zeta. rewrite Hover.
    cbn [gameOver score lives asteroids updateGameObjects steered].
    rewrite map_map. repeat split; try assumption.
    cbn [handleEvent]. unfold updaterState. rewrite Hover. reflexivity.
  - destruct (shoot_frame gs s) as (_ & Ea & Es & El & Eg).
    rewrite Ea, Es, El, Eg. repeat split. exact Hover.
Qed.

(** X13.  Game over is final until "Play Again": from a state with
    [gameOver = true], after any sequence of frames and shots the state
    is still game over with the same score and the same lives, the same
    asteroids up to position and rotation, and no random number has been
    drawn. *)
Theorem gameOver_is_final (es : list Event) (s : GameState) (g : Rng) :
  Forall noRestart es -> gameOver s = true ->
  let s' := evalState (run es s) g in
  gameOver s' = true /\ score s' = score s /\ lives s' = lives s
  /\ map (fun a : Asteroid => (velocity a, size a, vertices a)) (asteroids s')
     = map (fun a : Asteroid => (velocity a, size a, vertices a)) (asteroids s)
  /\ execState (run es s) g = g.
Proof.
  revert s g. induction es as [| e es IH]; intros s g Hno Hover.
  - cbn. repeat split. exact Hover.
  - inversion Hno as [| e' es' He Hes]; subst.
    destruct (gameOver_step e s g He Hover) as (Hg & Hs & Hl & Ha & Hr).
    cbn zeta. unfold evalState, execState. rewrite run_cons, Hr.
    fold (evalState (run es (evalState (handleEvent e s) g)) g).
    fold (execState (run es (evalState (handleEvent e s) g)) g).
    destruct (IH (evalState (handleEvent e s) g) g Hes Hg)
      as (Hg' & Hs' & Hl' & Ha' & Hr').
    rewrite Hs', Hl', Ha', Hr'. repeat split; assumption.
Qed.

(** Three frames and a shot after the last life is lost. *)
Lemma gameOver_is_final_witness :
  let s' := evalState (run [Tick ["ArrowUp"%string] 1; Fire driftState; Tick [] 2]
                           driftState) halves in
  gameOver s' = true /\ score s' = score driftState /\ lives s' = lives driftState.
Proof.
  destruct (gameOver_is_final
              [Tick ["ArrowUp"%string] 1; Fire driftState; Tick [] 2]
              driftState halves) as (Hg & Hs & Hl & _).
  - repeat constructor.
  - reflexivity.
  - exact (conj Hg (conj Hs Hl)).
Defined.

Lemma scoreOK_step (e : Event) (s : GameState) (g : Rng) :
  scoreOK s -> scoreOK (evalState (handleEvent e s) g).
Proof.
  intros [k Hk]. rewrite handleEvent_cases. unfold scoreOK.
  destruct e as [keys dt | gs |].
  - cbn zeta. destruct (gameOver s).
    + exists k. exact Hk.
    + rewrite resolve_fields. cbn [score updateGameObjects steered].
      match goal with |- context [Z.of_nat (List.length ?l)] =>
        exists (k + List.length l)%nat end.
      rewrite Hk. lia.
  - destruct (shoot_frame gs s) as (_ & _ & Es & _). rewrite Es.
    exists k. exact Hk.
  - rewrite initialState_fields. exists 0%nat. reflexivity.
Qed.

Lemma score_step (e : Event) (s : GameState) (g : Rng) :
  noRestart e -> (score s <= score (evalState (handleEvent e s) g))%Z.
Proof.
  intros He. rewrite handleEvent_cases.
  destruct e as [keys dt | gs |]; [| | contradiction].
  - cbn zeta. destruct (gameOver s).
    + cbn [score updateGameObjects steered]. lia.
    + rewrite resolve_fields. cbn [score updateGameObjects steered]. lia.
  - destruct (shoot_frame gs s) as (_ & _ & Es & _). rewrite Es. lia.
Qed.

(** X14.  In every session the score is 100 times a natural number, and
    as long as "Play Again" is not clicked it never goes down. *)
Theorem score_counts_hundreds (es : list Event) (s : GameState) (g : Rng) :
  scoreOK (evalState (play es) g)
  /\ (Forall noRestart es -> (score s <= score (evalState (run es s) g))%Z).
Proof.
  split.
  - rewrite play_run.
    apply (run_invariant_any scoreOK (fun _ => True)).
    + intros e s0 g0 _. apply scoreOK_step.
    + apply Forall_forall. trivial.
    + rewrite initialState_fields. exists 0%nat. reflexivity.
  - intros Hno.
    apply (run_invariant_any (fun s' => (score s <= score s')%Z) noRestart);
      [| exact Hno | lia].
    intros e s0 g0 He H0. pose proof (score_step e s0 g0 He). lia.
Qed.

(** A frame in which the bullet of [duelState] destroys the asteroid. *)
Lemma score_counts_hundreds_witness :
  (score duelState
   <= score (evalState (run [Tick [] 1; Tick [] 1] duelState) halves))%Z.
Proof.
  apply (proj2 (score_counts_hundreds [Tick [] 1; Tick [] 1] duelState halves)).
  repeat constructor.
Defined.

(** *** Bullets through the frames *)

Lemma tick_lifespans (keys : Keys) (dt : R) (s : GameState) (g : Rng) :
  map lifespan (bullets (evalState (handleEvent (Tick keys dt) s) g))
  = map (fun l => l - 1)%Z (filter (fun l => l >? 1)%Z (map lifespan (bullets s))).
Proof.
  rewrite handleEvent_cases. cbn zeta.
  assert (E : bullets (if gameOver s
                       then updateGameObjects (steered keys dt s)
                              CANVAS_WIDTH CANVAS_HEIGHT
                       else resolve (updateGameObjects (steered keys dt s)
                                       CANVAS_WIDTH CANVAS_HEIGHT) g)
              = bullets (updateGameObjects (steered keys dt s)
                           CANVAS_WIDTH CANVAS_HEIGHT)).
  { destruct (gameOver s); [reflexivity |]. rewrite resolve_fields. reflexivity. }
  rewrite E. apply (lifespans_after_tick CANVAS_WIDTH CANVAS_HEIGHT (steered keys dt s)).
Qed.

Lemma frames_lifespans (inputs : list (Keys * R)) (i : Keys * R)
    (s : GameState) (g : Rng) :
  map lifespan (bullets (evalState (run (frames (i :: inputs)) s) g))
  = map (fun l => l - Z.of_nat (S (List.length inputs)))%Z
        (filter (fun l => l >? Z.of_nat (S (List.length inputs)))%Z
                (map lifespan (bullets s))).
Proof.
  revert i s g. induction inputs as [| j inputs IH]; intros i s g.
  - cbn [frames map]. unfold evalState. rewrite run_cons.
    cbn [run runState ret Monad_state fst].
    apply tick_lifespans.
  - change (frames (i :: j :: inputs))
      with (Tick (fst i) (snd i) :: frames (j :: inputs)).
    unfold evalState. rewrite run_cons.
    fold (evalState (run (frames (j :: inputs))
                         (evalState (handleEvent (Tick (fst i) (snd i)) s) g))
                    (execState (handleEvent (Tick (fst i) (snd i)) s) g)).
    rewrite IH, tick_lifespans, lifespan_survivors by lia.
    cbn [List.length].
    replace (Z.of_nat (S (List.length inputs)) + 1)%Z
      with (Z.of_nat (S (S (List.length inputs)))) by lia.
    reflexivity.
Qed.

(** X15.  In the game loop, too, a bullet lives exactly as long as its
    lifespan says: after [n >= 1] frames, whatever the keys, the
    collisions and the game-over flag, the bullets left are those whose
    lifespan was greater than [n], with [n] taken off; hitting an
    asteroid does not shorten the life of a bullet. *)
Theorem bullets_outlive_hits (inputs : list (Keys * R)) (i : Keys * R)
    (s : GameState) (g : Rng) :
  let n := S (List.length inputs) in
  let s' := evalState (run (frames (i :: inputs)) s) g in
  map lifespan (bullets s')
  = map (fun l => l - Z.of_nat n)%Z
        (filter (fun l => l >? Z.of_nat n)%Z (map lifespan (bullets s)))
  /\ List.length (bullets s')
     = List.length (filter (fun b => lifespan b >? Z.of_nat n)%Z (bullets s)).
Proof.
  intros n s'. pose proof (frames_lifespans inputs i s g) as H.
  fold n in H. fold s' in H. split; [exact H |].
  apply (f_equal (@List.length Z)) in H.
  rewrite !length_map in H. rewrite H.
  rewrite filter_map_swap, length_map. reflexivity.
Qed.

(** *** Well-formed states *)

Lemma component_le_speed (v : Point) :
  - speedOf v <= x v <= speedOf v /\ - speedOf v <= y v <= speedOf v.
Proof.
  pose proof (speedOf_nonneg v) as H0. pose proof (speedOf_sqr v) as Hs.
  set (n := speedOf v) in *. clearbody n.
  split; split; nra.
Qed.

Lemma speedOf_zero : speedOf {| x := 0; y := 0 |} = 0.
Proof.
  unfold speedOf. cbn [x y].
  replace (0 * 0 + 0 * 0) with 0 by ring. apply sqrt_0.
Qed.

Lemma asteroidOK_generated (g : Rng) :
  unitRng g ->
  asteroidOK (evalState (createAsteroid CANVAS_WIDTH CANVAS_HEIGHT) g)
  /\ tailOf g (execState (createAsteroid CANVAS_WIDTH CANVAS_HEIGHT) g).
Proof.
  intros Hg.
  destruct (createAsteroid_ranges CANVAS_WIDTH CANVAS_HEIGHT g Hg)
    as (Hs & Hn & Ha & Hv & _ & Ht).
  split; [| exact Ht]. unfold asteroidOK.
  split; [apply Ha; unfold CANVAS_WIDTH, CANVAS_HEIGHT; lra |].
  split; [exact Hs |]. split; [exact Hv | exact Hn].
Qed.

Lemma refill_wellFormed (n : nat) (g : Rng) :
  unitRng g ->
  Forall asteroidOK
    (evalState (Array_from n (createAsteroid CANVAS_WIDTH CANVAS_HEIGHT)) g).
Proof. apply Array_from_Forall. apply asteroidOK_generated. Qed.

Lemma shipOK_centre : shipOK (createShip (CANVAS_WIDTH / 2) (CANVAS_HEIGHT / 2)).
Proof.
  unfold shipOK, inArena, CANVAS_WIDTH, CANVAS_HEIGHT, maxSpeed.
  cbn [createShip position velocity size ship_obj x y].
  rewrite speedOf_zero. repeat split; lra.
Qed.

Lemma wellFormed_initial (g : Rng) :
  unitRng g -> wellFormed (evalState initialState g).
Proof.
  intros Hg. rewrite initialState_fields. unfold wellFormed.
  cbn [ship asteroids bullets].
  split; [apply shipOK_centre |].
  split; [apply refill_wellFormed; exact Hg |].
  split; [rewrite Array_from_length; unfold INITIAL_ASTEROIDS; lia |].
  constructor.
Qed.

Lemma shipOK_updateShip (sh : Ship) :
  shipOK sh -> shipOK (updateShip sh CANVAS_WIDTH CANVAS_HEIGHT).
Proof.
  intros ([Hx Hy] & Hsz & _). unfold shipOK.
  assert (HW : 0 < CANVAS_WIDTH) by (unfold CANVAS_WIDTH; lra).
  assert (HH : 0 < CANVAS_HEIGHT) by (unfold CANVAS_HEIGHT; lra).
  split; [| split].
  - apply (wrapped_inArena _ _ HW HH sh _ _
             (updateShip_position CANVAS_WIDTH CANVAS_HEIGHT sh)).
    change (velocity (updateShip sh CANVAS_WIDTH CANVAS_HEIGHT))
      with (limitSpeed (applyFriction (applyThrust sh))).
    destruct (limitSpeed_components (applyFriction (applyThrust sh))) as [Hvx Hvy].
    unfold oneWrapAway, preWrap, maxSpeed, CANVAS_WIDTH, CANVAS_HEIGHT in *.
    cbn [x y]. lra.
  - exact Hsz.
  - apply speedOf_limitSpeed_le.
Qed.

Lemma asteroidOK_updateAsteroid (a : Asteroid) :
  asteroidOK a -> asteroidOK (updateAsteroid CANVAS_WIDTH CANVAS_HEIGHT a).
Proof.
  intros ([Hx Hy] & Hsz & Hv & Hn). unfold asteroidOK.
  split; [| split; [exact Hsz | split; [exact Hv | exact Hn]]].
  apply updateAsteroid_inArena;
    try (unfold CANVAS_WIDTH, CANVAS_HEIGHT; lra).
  unfold oneWrapAway, preWrap, CANVAS_WIDTH, CANVAS_HEIGHT in *.
  cbn [x y]. lra.
Qed.

Lemma bulletOK_updateBullet (b : Bullet) :
  bulletOK b ->
  (lifespan (updateBullet CANVAS_WIDTH CANVAS_HEIGHT b) >? 0)%Z = true ->
  bulletOK (updateBullet CANVAS_WIDTH CANVAS_HEIGHT b).
Proof.
  intros ([Hx Hy] & Hsz & Hsp & Hl) Hpos. unfold bulletOK.
  apply Z.gtb_lt in Hpos.
  split; [| split; [exact Hsz | split; [exact Hsp |]]].
  - apply updateBullet_inArena;
      try (unfold CANVAS_WIDTH, CANVAS_HEIGHT; lra).
    destruct (component_le_speed (velocity b)) as [Hvx Hvy]. rewrite Hsp in *.
    unfold oneWrapAway, preWrap, CANVAS_WIDTH, CANVAS_HEIGHT in *.
    cbn [x y]. lra.
  - cbn [updateBullet lifespan] in *. lia.
Qed.

Lemma wellFormed_updateGameObjects (s : GameState) :
  wellFormed s -> wellFormed (updateGameObjects s CANVAS_WIDTH CANVAS_HEIGHT).
Proof.
  intros (Hs & Ha & Hn & Hb). unfold wellFormed.
  cbn [ship asteroids bullets updateGameObjects].
  split; [apply shipOK_updateShip; exact Hs |].
  split; [| split].
  - apply Forall_map. eapply Forall_impl; [| exact Ha].
    intros a. apply asteroidOK_updateAsteroid.
  - rewrite length_map. exact Hn.
  - apply Forall_forall. intros b' Hin.
    apply filter_In in Hin. destruct Hin as [Hin Hpos].
    apply in_map_iff in Hin. destruct Hin as (b & Eb & Hin). subst b'.
    apply bulletOK_updateBullet; [| exact Hpos].
    apply (proj1 (Forall_forall _ _) Hb b Hin).
Qed.

Lemma wellFormed_steered (keys : Keys) (dt : R) (s : GameState) :
  wellFormed s -> wellFormed (steered keys dt s).
Proof.
  intros (Hs & Ha & Hn & Hb). unfold wellFormed. cbn [ship asteroids bullets steered].
  split; [exact Hs | split; [exact Ha | split; [exact Hn | exact Hb]]].
Qed.

Lemma shipOK_resetShip (sh : Ship) : shipOK sh -> shipOK (resetShip sh).
Proof.
  intros (_ & Hsz & _). unfold shipOK, inArena, CANVAS_WIDTH, CANVAS_HEIGHT, maxSpeed.
  cbn [resetShip position velocity size ship_obj x y].
  rewrite speedOf_zero. repeat split; lra.
Qed.

Lemma filter_length_le {A : Type} (f : A -> bool) (l : list A) :
  (List.length (filter f l) <= List.length l)%nat.
Proof.
  induction l as [| a l IH]; [apply Nat.le_refl |].
  cbn [filter]. destruct (f a); cbn [List.length]; lia.
Qed.

Lemma wellFormed_resolve (s : GameState) (g : Rng) :
  unitRng g -> wellFormed s -> wellFormed (resolve s g).
Proof.
  intros Hg (Hs & Ha & Hn & Hb). rewrite resolve_fields. unfold wellFormed.
  cbn [ship asteroids bullets].
  split; [| split; [| split; [| exact Hb]]].
  - destruct (hasCollision s); [| exact Hs].
    destruct (lives s - 1 <=? 0)%Z; [exact Hs | apply shipOK_resetShip; exact Hs].
  - destruct (filter _ (asteroids s)) eqn:E.
    + apply (refill_wellFormed 5 g Hg).
    + rewrite <- E. apply Forall_filter_keep. exact Ha.
  - pose proof (filter_length_le (fun a => negb (hitByBullet (bullets s) a))
                  (asteroids s)) as Hle.
    destruct (filter _ (asteroids s)) eqn:E.
    + rewrite Array_from_length. lia.
    + cbn [List.length] in *. lia.
Qed.

Lemma wellFormed_shoot (gs s : GameState) :
  inArena CANVAS_WIDTH CANVAS_HEIGHT (ship gs) ->
  wellFormed s -> wellFormed (shoot gs s).
Proof.
  intros Hin (Hs & Ha & Hn & Hb). unfold shoot.
  destruct (gameOver gs);
    [split; [exact Hs | split; [exact Ha | split; [exact Hn | exact Hb]]] |].
  unfold wellFormed. cbn [ship asteroids bullets].
  split; [exact Hs |]. split; [exact Ha |]. split; [exact Hn |].
  apply Forall_app. split; [exact Hb |].
  constructor; [| constructor]. unfold bulletOK.
  cbn [position velocity size lifespan bullet_obj].
  split; [exact Hin |]. split; [reflexivity |]. split; [| lia].
  unfold speedOf. cbn [x y]. apply norm_scaled. lra.
Qed.

Lemma wellFormed_step (e : Event) (s : GameState) (g : Rng) :
  unitRng g -> eventOK e -> wellFormed s ->
  wellFormed (evalState (handleEvent e s) g).
Proof.
  intros Hg He Hs. rewrite handleEvent_cases.
  destruct e as [keys dt | gs |].
  - cbn zeta.
    pose proof (wellFormed_updateGameObjects _ (wellFormed_steered keys dt s Hs)) as Hm.
    destruct (gameOver s); [exact Hm | apply wellFormed_resolve; assumption].
  - apply wellFormed_shoot; assumption.
  - apply wellFormed_initial. exact Hg.
Qed.

(** X16.  Every state of a session is well formed, whatever the keys,
    the frame times and the random draws in [[0, 1)], as long as each
    shot is fired from a ship inside the arena: the ship, every asteroid
    and every bullet are inside the 800 x 600 arena; the ship has size
    20 and speed at most 5; there are between 1 and 5 asteroids, each of
    size in [[20, 50)], with velocity components in [[-1, 1)] and 7 to
    11 vertices; every bullet has size 2, speed 7 and a lifespan between
    1 and 60. *)
Theorem sessions_stay_wellFormed (es : list Event) (g : Rng) :
  unitRng g -> Forall eventOK es ->
  let s := evalState (play es) g in
  shipOK (ship s)
  /\ Forall asteroidOK (asteroids s)
  /\ (1 <= List.length (asteroids s) <= 5)%nat
  /\ Forall bulletOK (bullets s).
Proof.
  intros Hg He.
  apply (play_invariant wellFormed eventOK).
  - apply wellFormed_initial.
  - apply wellFormed_step.
  - exact Hg.
  - exact He.
Qed.

(** Thrust, a shot from the centre, a left turn. *)
Lemma sessions_stay_wellFormed_witness :
  let s := evalState (play [Tick ["ArrowUp"%string] 1;
                            Fire (sampleState (createShip 400 300) [] [] 3 false);
                            Tick ["ArrowLeft"%string] 2]) halves in
  shipOK (ship s)
  /\ Forall asteroidOK (asteroids s)
  /\ (1 <= List.length (asteroids s) <= 5)%nat
  /\ Forall bulletOK (bullets s).
Proof.
  apply sessions_stay_wellFormed.
  - apply halves_unit.
  - repeat constructor; unfold CANVAS_WIDTH, CANVAS_HEIGHT; simpl; lra.
Defined.

(** ** Rendering *)

Lemma stackDepth_app (t1 t2 : list Cmd) (d : nat) :
  stackDepth (t1 ++ t2) d
  = match stackDepth t1 d with
    | Some d' => stackDepth t2 d'
    | None => None
    end.
Proof.
  revert d. induction t1 as [| c t1 IH]; intros d; [reflexivity |].
  destruct c; cbn [app stackDepth]; try apply IH.
  destruct d; [reflexivity | apply IH].
Qed.

Lemma stackDepth_lineTo (vs : list Point) (d : nat) :
  stackDepth (map (fun vertex => ctx_lineTo (x vertex) (y vertex)) vs) d = Some d.
Proof. induction vs as [| v vs IH]; [reflexivity | exact IH]. Qed.

Lemma stackDepth_drawShip (sh : Ship) (d : nat) :
  stackDepth (drawShip sh) d = Some d.
Proof. unfold drawShip. destruct (thrusting sh); reflexivity. Qed.

Lemma stackDepth_bullets (bs : list Bullet) (d : nat) :
  stackDepth (flat_map drawBullet bs) d = Some d.
Proof. induction bs as [| b bs IH]; [reflexivity | exact IH]. Qed.

Lemma drawAsteroid_cases (a : Asteroid) :
  completed (drawAsteroid a) = hasVertex a
  /\ forall d, stackDepth (traceOf (drawAsteroid a)) d
               = Some (if hasVertex a then d else S d).
Proof.
  unfold drawAsteroid, hasVertex. destruct (vertices a) as [| v0 vs].
  - split; reflexivity.
  - split; [reflexivity |]. intros d.
    cbn [traceOf app stackDepth map].
    rewrite stackDepth_app, stackDepth_lineTo. reflexivity.
Qed.

Lemma drawAsteroids_cases (l : list Asteroid) :
  completed (drawAsteroids l) = forallb hasVertex l
  /\ forall d, stackDepth (traceOf (drawAsteroids l)) d
               = Some (if forallb hasVertex l then d else S d).
Proof.
  induction l as [| a l [IHc IHd]]; [split; reflexivity |].
  destruct (drawAsteroid_cases a) as [Hc Hd].
  cbn [drawAsteroids forallb].
  destruct (drawAsteroid a) as [t | t]; cbn [completed traceOf] in Hc, Hd;
    rewrite <- Hc in *; cbn [andb].
  - destruct (drawAsteroids l) as [t' | t']; cbn [completed traceOf] in IHc, IHd |- *;
      rewrite <- IHc in *; (split; [reflexivity |]); intros d;
      rewrite stackDepth_app, Hd, IHd; reflexivity.
  - split; [reflexivity |]. intros d. cbn [traceOf]. rewrite Hd. reflexivity.
Qed.

Lemma countCmd_app (f : Cmd -> bool) (t1 t2 : list Cmd) :
  countCmd f (t1 ++ t2) = (countCmd f t1 + countCmd f t2)%nat.
Proof. unfold countCmd. rewrite filter_app, length_app. reflexivity. Qed.

Lemma countCmd_lineTo (f : Cmd -> bool) (vs : list Point) :
  (forall px py, f (ctx_lineTo px py) = false) ->
  countCmd f (map (fun vertex => ctx_lineTo (x vertex) (y vertex)) vs) = 0%nat.
Proof.
  intros Hf. unfold countCmd. rewrite filter_none; [reflexivity |].
  intros c Hc. apply in_map_iff in Hc. destruct Hc as (v & Ev & _).
  subst c. apply Hf.
Qed.

Lemma strokes_drawShip (sh : Ship) :
  countCmd isStroke (drawShip sh) = if thrusting sh then 2%nat else 1%nat.
Proof. unfold drawShip. destruct (thrusting sh); reflexivity. Qed.

Lemma fills_drawShip (sh : Ship) : countCmd isFill (drawShip sh) = 0%nat.
Proof. unfold drawShip. destruct (thrusting sh); reflexivity. Qed.

Lemma counts_drawAsteroid (a : Asteroid) :
  countCmd isFill (traceOf (drawAsteroid a)) = 0%nat
  /\ (hasVertex a = true -> countCmd isStroke (traceOf (drawAsteroid a)) = 1%nat).
Proof.
  unfold drawAsteroid, hasVertex. destruct (vertices a) as [| v0 vs].
  - split; [reflexivity | discriminate].
  - cbn [traceOf]. rewrite !countCmd_app, !countCmd_lineTo by reflexivity.
    split; reflexivity.
Qed.

Lemma counts_drawAsteroids (l : list Asteroid) :
  countCmd isFill (traceOf (drawAsteroids l)) = 0%nat
  /\ (forallb hasVertex l = true ->
      countCmd isStroke (traceOf (drawAsteroids l)) = List.length l).
Proof.
  induction l as [| a l [IHf IHs]]; [split; reflexivity |].
  destruct (counts_drawAsteroid a) as [Hf Hs].
  destruct (drawAsteroid_cases a) as [Hc _].
  cbn [drawAsteroids forallb].
  destruct (drawAsteroid a) as [t | t]; cbn [completed traceOf] in *.
  - destruct (drawAsteroids l) as [t' | t']; cbn [traceOf] in *;
      rewrite !countCmd_app, Hf, IHf; (split; [reflexivity |]);
      intros H; apply andb_true_iff in H; destruct H as [H1 H2];
      rewrite (Hs H1), (IHs H2); reflexivity.
  - split; [exact Hf |]. rewrite <- Hc. discriminate.
Qed.

Lemma fills_bullets (bs : list Bullet) :
  countCmd isFill (flat_map drawBullet bs) = List.length bs.
Proof.
  induction bs as [| b bs IH]; [reflexivity |].
  cbn [flat_map]. rewrite countCmd_app, IH. reflexivity.
Qed.

Lemma strokes_bullets (bs : list Bullet) :
  countCmd isStroke (flat_map drawBullet bs) = 0%nat.
Proof.
  induction bs as [| b bs IH]; [reflexivity |].
  cbn [flat_map]. rewrite countCmd_app, IH. reflexivity.
Qed.

Lemma drawGame_completed (s : GameState) :
  completed (drawGame s) = forallb hasVertex (asteroids s).
Proof.
  unfold drawGame. destruct (drawAsteroids_cases (asteroids s)) as [Hc _].
  destruct (drawAsteroids (asteroids s)); exact Hc.
Qed.

(** X17.  [drawGame] runs to its end exactly when every asteroid has at
    least one vertex.  Then every [save] has its [restore] (the canvas
    state stack is back at its depth), each bullet is filled once, and
    there is one stroke for the ship, one more when it thrusts, and one
    per asteroid.  Otherwise it stops with a [TypeError] at the first
    asteroid without vertex: that asteroid's [save] is left open and no
    bullet is drawn. *)
Theorem drawGame_outcome (s : GameState) :
  let o := drawGame s in
  completed o = forallb hasVertex (asteroids s)
  /\ (completed o = true ->
      (forall d, stackDepth (traceOf o) d = Some d)
      /\ countCmd isFill (traceOf o) = List.length (bullets s)
      /\ countCmd isStroke (traceOf o)
         = ((if thrusting (ship s) then 2 else 1) + List.length (asteroids s))%nat)
  /\ (completed o = false ->
      (forall d, stackDepth (traceOf o) d = Some (S d))
      /\ countCmd isFill (traceOf o) = 0%nat).
Proof.
  intros o. subst o. split; [apply drawGame_completed |].
  rewrite drawGame_completed. unfold drawGame.
  destruct (drawAsteroids_cases (asteroids s)) as [Hc Hd].
  destruct (counts_drawAsteroids (asteroids s)) as [Hf Hs].
  destruct (drawAsteroids (asteroids s)) as [t | t];
    cbn [completed traceOf] in *; rewrite <- Hc in *; split; intros H;
    try discriminate.
  - split; [| split].
    + intros d. rewrite stackDepth_app, stackDepth_drawShip.
      rewrite stackDepth_app, Hd. cbn [app stackDepth].
      apply stackDepth_bullets.
    + rewrite !countCmd_app, fills_drawShip, Hf, fills_bullets. reflexivity.
    + rewrite !countCmd_app, strokes_drawShip, (Hs eq_refl), strokes_bullets.
      cbn [countCmd filter isStroke List.length]. lia.
  - split.
    + intros d. rewrite stackDepth_app, stackDepth_drawShip. apply Hd.
    + rewrite countCmd_app, fills_drawShip, Hf. reflexivity.
Qed.

(** The second asteroid of [brokenState] has no vertex: the drawing
    stops there, one [save] deep, before any bullet. *)
Lemma drawGame_outcome_witness :
  completed (drawGame brokenState) = false
  /\ stackDepth (traceOf (drawGame brokenState)) 0 = Some 1%nat
  /\ countCmd isFill (traceOf (drawGame brokenState)) = 0%nat.
Proof.
  destruct (drawGame_outcome brokenState) as (Hc & _ & Hfail).
  assert (E : completed (drawGame brokenState) = false) by (rewrite Hc; reflexivity).
  destruct (Hfail E) as [Hd Hf].
  split; [exact E |]. split; [apply Hd | exact Hf].
Defined.

Lemma verticesOK_step (e : Event) (s : GameState) (g : Rng) :
  unitRng g -> True ->
  Forall (fun a => hasVertex a = true) (asteroids s) ->
  Forall (fun a => hasVertex a = true) (asteroids (evalState (handleEvent e s) g)).
Proof.
  intros Hg _ Hs.
  assert (Hfresh : forall n g0, unitRng g0 ->
            Forall (fun a => hasVertex a = true)
              (evalState (Array_from n (createAsteroid CANVAS_WIDTH CANVAS_HEIGHT)) g0)).
  { intros n g0 Hg0. eapply Forall_impl; [| apply (refill_wellFormed n g0 Hg0)].
    intros a (_ & _ & _ & Hn). unfold hasVertex.
    destruct (vertices a); [cbn in Hn; lia | reflexivity]. }
  assert (Hmoved : forall keys dt,
            Forall (fun a => hasVertex a = true)
              (asteroids (updateGameObjects (steered keys dt s)
                            CANVAS_WIDTH CANVAS_HEIGHT))).
  { intros keys dt. cbn [asteroids updateGameObjects steered].
    apply Forall_map. exact Hs. }
  rewrite handleEvent_cases. destruct e as [keys dt | gs |].
  - cbn zeta. destruct (gameOver s); [apply Hmoved |].
    rewrite resolve_fields. cbn [asteroids].
    destruct (filter _ _) eqn:E.
    + apply (Hfresh 5%nat g Hg).
    + rewrite <- E. apply Forall_filter_keep. apply Hmoved.
  - destruct (shoot_frame gs s) as (_ & Ea & _). rewrite Ea. exact Hs.
  - rewrite initialState_fields. cbn [asteroids]. apply Hfresh. exact Hg.
Qed.

(** X18.  In a session [drawGame] never throws: whatever the events,
    with random draws in [[0, 1)], every asteroid of the state has its
    vertices and the drawing runs to its end with the canvas state
    stack balanced. *)
Theorem drawGame_never_throws (es : list Event) (g : Rng) :
  unitRng g ->
  let o := drawGame (evalState (play es) g) in
  completed o = true /\ stackDepth (traceOf o) 0 = Some 0%nat.
Proof.
  intros Hg o.
  assert (Hv : Forall (fun a => hasVertex a = true)
                      (asteroids (evalState (play es) g))).
  { apply (play_invariant
             (fun s => Forall (fun a => hasVertex a = true) (asteroids s))
             (fun _ => True)); try assumption.
    - intros g0 Hg0. rewrite initialState_fields. cbn [asteroids].
      eapply Forall_impl; [| apply (refill_wellFormed INITIAL_ASTEROIDS g0 Hg0)].
      intros a (_ & _ & _ & Hn). unfold hasVertex.
      destruct (vertices a); [cbn in Hn; lia | reflexivity].
    - apply verticesOK_step.
    - apply Forall_forall. trivial. }
  assert (Hc : completed o = true).
  { subst o. rewrite drawGame_completed. apply forallb_forall.
    apply Forall_forall. exact Hv. }
  split; [exact Hc |].
  subst o. unfold drawGame in *.
  destruct (drawAsteroids_cases (asteroids (evalState (play es) g))) as [Hca Hd].
  destruct (drawAsteroids (asteroids (evalState (play es) g))) as [t | t];
    cbn [completed traceOf] in *; [| discriminate].
  rewrite stackDepth_app, stackDepth_drawShip, stackDepth_app, Hd, <- Hca.
  cbn [app stackDepth]. apply stackDepth_bullets.
Qed.

(** A session on [halves]: two frames and a restart. *)
Lemma drawGame_never_throws_witness :
  completed (drawGame (evalState (play [Tick [] 1; PlayAgain; Tick [] 1]) halves))
  = true.
Proof.
  apply (drawGame_never_throws [Tick [] 1; PlayAgain; Tick [] 1] halves).
  apply halves_unit.
Defined.

(** ** Restart, reset and long runs *)

Lemma run_app (es1 es2 : list Event) (s : GameState) (g : Rng) :
  runState (run (es1 ++ es2) s) g
  = runState (run es2 (evalState (run es1 s) g)) (execState (run es1 s) g).
Proof.
  revert s g. induction es1 as [| e es1 IH]; intros s g.
  - reflexivity.
  - cbn [app]. rewrite run_cons, IH. unfold evalState, execState.
    rewrite run_cons. reflexivity.
Qed.

(** X19.  "Play Again" starts a new game whatever happened before: after
    any sequence of events followed by a restart the state is the
    initial state built from the random draws that are left, with 3
    lives, score 0, [gameOver = false], no bullet, the ship at rest at
    (400, 300) and 5 asteroids. *)
Theorem playAgain_starts_over (es : list Event) (s : GameState) (g : Rng) :
  let s' := evalState (run (es ++ [PlayAgain]) s) g in
  s' = evalState initialState (execState (run es s) g)
  /\ lives s' = 3%Z /\ score s' = 0%Z /\ gameOver s' = false
  /\ bullets s' = []
  /\ ship s' = createShip 400 300
  /\ List.length (asteroids s') = 5%nat.
Proof.
  intros s'.
  assert (E : s' = evalState initialState (execState (run es s) g)).
  { subst s'. unfold evalState at 1. rewrite run_app, run_cons.
    cbn [run runState ret Monad_state fst handleEvent handleRestart].
    reflexivity. }
  split; [exact E |]. rewrite E, initialState_fields.
  cbn [lives score gameOver bullets ship asteroids].
  rewrite Array_from_length.
  unfold INITIAL_LIVES, INITIAL_ASTEROIDS, CANVAS_WIDTH, CANVAS_HEIGHT.
  repeat split. unfold createShip. repeat f_equal; lra.
Qed.

(** X20.  The reset after a ship collision gives no invulnerability and
    removes no asteroid: when the asteroid the ship hit is not hit by a
    bullet and also covers the reset position (400, 300), the returned
    ship collides again, and resolving the returned state costs a second
    life. *)
Theorem reset_gives_no_invulnerability
    (s : GameState) (g g' : Rng) (a : Asteroid) :
  In a (asteroids s) ->
  hitByBullet (bullets s) a = false ->
  checkCollision (ship s) a = true ->
  checkCollision (resetShip (ship s)) a = true ->
  (2 <= lives s)%Z ->
  let s1 := resolve s g in
  ship s1 = resetShip (ship s)
  /\ In a (asteroids s1)
  /\ hasCollision s1 = true
  /\ lives (resolve s1 g') = (lives s - 2)%Z.
Proof.
  intros Hin Hno Hhit Hcentre Hl s1.
  assert (Hc : hasCollision s = true) by (apply (hasCollision_In s a); assumption).
  assert (Halive : (lives s - 1 <=? 0)%Z = false) by (apply Z.leb_gt; lia).
  assert (Hkept : In a (filter (fun a0 => negb (hitByBullet (bullets s) a0))
                               (asteroids s))).
  { apply filter_In. split; [exact Hin | rewrite Hno; reflexivity]. }
  assert (E1 : ship s1 = resetShip (ship s)).
  { subst s1. rewrite resolve_fields. cbn [ship]. rewrite Hc, Halive. reflexivity. }
  assert (E2 : In a (asteroids s1)).
  { subst s1. rewrite resolve_fields. cbn [asteroids].
    destruct (filter _ (asteroids s)); [contradiction | exact Hkept]. }
  assert (E3 : hasCollision s1 = true).
  { apply (hasCollision_In s1 a E2). rewrite E1. exact Hcentre. }
  assert (E4 : lives s1 = (lives s - 1)%Z).
  { subst s1. rewrite resolve_fields. cbn [lives]. rewrite Hc. reflexivity. }
  split; [exact E1 |]. split; [exact E2 |]. split; [exact E3 |].
  rewrite resolve_fields. cbn [lives]. rewrite E3, E4. lia.
Qed.

(** An asteroid resting on the centre takes two lives in two calls. *)
Lemma reset_gives_no_invulnerability_witness :
  lives (resolve (resolve centreCrashState halves) halves) = 1%Z.
Proof.
  assert (Hc : forall sh : Ship, position sh = {| x := 400; y := 300 |} ->
                 size sh = 20 -> checkCollision sh (rock 400 300 0 0 30) = true).
  { intros sh Hp Hs. apply checkCollision_same_position; [exact Hp |].
    rewrite Hs. simpl. lra. }
  apply (reset_gives_no_invulnerability centreCrashState halves halves
           (rock 400 300 0 0 30)).
  - left. reflexivity.
  - reflexivity.
  - apply Hc; reflexivity.
  - apply Hc; reflexivity.
  - simpl. lia.
Defined.

(** *** Motion over many ticks *)

Lemma wrapAxis_shift (p d : R) :
  exists k : Z, wrapAxis p d = p - IZR k * d.
Proof.
  exists (Js.trunc ((p + d) / d) - 1)%Z.
  unfold wrapAxis, Js.rem. rewrite minus_IZR. ring.
Qed.

Lemma ticks_asteroids (n : nat) (s : GameState) (W H : R) :
  asteroids (ticks n W H s) = map (Nat.iter n (updateAsteroid W H)) (asteroids s).
Proof.
  revert s. induction n as [| n IH]; intros s.
  - cbn [ticks Nat.iter]. symmetry. apply map_id.
  - cbn [ticks]. rewrite IH, updateGameObjects_asteroids, map_map.
    apply map_ext. intros a. symmetry. apply Nat.iter_succ_r.
Qed.

Lemma asteroid_after_ticks (n : nat) (a : Asteroid) (W H : R) :
  0 < W -> 0 < H -> inArena W H a ->
  - W <= x (velocity a) -> - H <= y (velocity a) ->
  let a' := Nat.iter n (updateAsteroid W H) a in
  inArena W H a'
  /\ velocity a' = velocity a
  /\ exists kx ky : Z,
       x (position a') = x (position a) + INR n * x (velocity a) - IZR kx * W
       /\ y (position a') = y (position a) + INR n * y (velocity a) - IZR ky * H.
Proof.
  intros HW HH Hin Hvx Hvy. induction n as [| n IH].
  - cbn [Nat.iter]. split; [exact Hin |]. split; [reflexivity |].
    exists 0%Z, 0%Z. simpl. split; ring.
  - cbn zeta in *. rewrite Nat.iter_succ.
    set (b := Nat.iter n (updateAsteroid W H) a) in *.
    destruct IH as ([Hbx Hby] & Ev & kx & ky & Ex & Ey). clearbody b.
    split; [| split].
    + apply updateAsteroid_inArena; try assumption.
      unfold oneWrapAway, preWrap. cbn [x y]. rewrite Ev. lra.
    + cbn [updateAsteroid velocity asteroid_obj]. exact Ev.
    + rewrite updateAsteroid_position. cbn [preWrap x y]. rewrite Ev.
      destruct (wrapAxis_shift (x (position b) + x (velocity a)) W) as [jx Hjx].
      destruct (wrapAxis_shift (y (position b) + y (velocity a)) H) as [jy Hjy].
      exists (kx + jx)%Z, (ky + jy)%Z.
      rewrite Hjx, Hjy, Ex, Ey, S_INR, !plus_IZR. split; ring.
Qed.

(** X21.  Asteroids move in straight lines on the torus.  An asteroid
    inside the arena whose velocity components are not below [-width]
    and [-height] is, after [n] ticks, inside the arena at its position
    plus [n] times its velocity, up to whole multiples of the width and
    of the height. *)
Theorem asteroids_fly_straight (n : nat) (s : GameState) (W H : R) :
  0 < W -> 0 < H ->
  asteroids (ticks n W H s) = map (Nat.iter n (updateAsteroid W H)) (asteroids s)
  /\ forall a, In a (asteroids s) ->
       inArena W H a -> - W <= x (velocity a) -> - H <= y (velocity a) ->
       let a' := Nat.iter n (updateAsteroid W H) a in
       inArena W H a'
       /\ exists kx ky : Z,
            x (position a') = x (position a) + INR n * x (velocity a) - IZR kx * W
            /\ y (position a') = y (position a) + INR n * y (velocity a) - IZR ky * H.
Proof.
  intros HW HH. split; [apply ticks_asteroids |].
  intros a _ Hin Hvx Hvy a'.
  destruct (asteroid_after_ticks n a W H HW HH Hin Hvx Hvy) as (Ha & _ & Hk).
  split; assumption.
Qed.

(** A thousand ticks of the asteroid of [coastingState]. *)
Lemma asteroids_fly_straight_witness :
  inArena 800 600 (Nat.iter 1000 (updateAsteroid 800 600) (rock 100 100 1 1 30)).
Proof.
  destruct (asteroids_fly_straight 1000 coastingState 800 600) as [_ H];
    [lra | lra |].
  apply (H (rock 100 100 1 1 30)).
  - left. reflexivity.
  - unfold inArena. simpl. lra.
  - simpl. lra.
  - simpl. lra.
Defined.

(** ** Frames as the updater runs them *)

Lemma gameLoopStep_run (keys : Keys) (deltaTime : R) (prev : GameState) (g : Rng) :
  runState (gameLoopStep keys deltaTime prev) g
  = (drawFrame (nextState keys deltaTime prev g),
     execState (updaterState keys deltaTime prev) g).
Proof.
  unfold gameLoopStep, nextState, evalState, execState.
  cbn [runState bind ret Monad_state].
  destruct (runState (updaterState keys deltaTime prev) g). reflexivity.
Qed.

(** Drawing a frame throws exactly when some asteroid has no vertex. *)
Lemma drawFrame_cases (s : GameState) :
  let t := ctx_clearRect 0 0 CANVAS_WIDTH CANVAS_HEIGHT :: traceOf (drawGame s) in
  drawFrame s = if forallb hasVertex (asteroids s) then Drawn s t else Thrown t.
Proof.
  cbn zeta. rewrite <- drawGame_completed. unfold drawFrame.
  destruct (drawGame s); reflexivity.
Qed.

(** The updater returns the state it computed, and returns it exactly
    when every asteroid of that state has a vertex. *)
Lemma gameLoopStep_drawn (keys : Keys) (deltaTime : R) (prev : GameState) (g : Rng) :
  (forall s' t, frame keys deltaTime prev g = Drawn s' t ->
                s' = nextState keys deltaTime prev g)
  /\ (forallb hasVertex (asteroids (nextState keys deltaTime prev g)) = true <->
      exists t, frame keys deltaTime prev g
                = Drawn (nextState keys deltaTime prev g) t).
Proof.
  unfold frame, evalState. rewrite gameLoopStep_run. cbn [fst].
  rewrite drawFrame_cases.
  destruct (forallb hasVertex (asteroids (nextState keys deltaTime prev g))).
  - split.
    + intros s' t E. injection E as E _. symmetry. exact E.
    + split; [eexists; reflexivity | reflexivity].
  - split.
    + intros s' t E. discriminate.
    + split; [discriminate | intros [t E]; discriminate].
Qed.

Lemma hasVertex_moved (l : list Asteroid) (W H : R) :
  forallb hasVertex (map (updateAsteroid W H) l) = forallb hasVertex l.
Proof.
  induction l as [| a l IH]; [reflexivity |].
  cbn [map forallb]. rewrite IH. reflexivity.
Qed.

(** A frame from a game-over state whose asteroids have vertices. *)
Lemma frame_gameOver_drawn (keys : Keys) (deltaTime : R) (prev : GameState) (g : Rng) :
  gameOver prev = true ->
  forallb hasVertex (asteroids prev) = true ->
  let moved := updateGameObjects (steered keys deltaTime prev)
                                 CANVAS_WIDTH CANVAS_HEIGHT in
  frame keys deltaTime prev g
  = Drawn moved (ctx_clearRect 0 0 CANVAS_WIDTH CANVAS_HEIGHT
                   :: traceOf (drawGame moved)).
Proof.
  intros Hover Hv moved. unfold frame, evalState.
  rewrite gameLoopStep_run. cbn [fst].
  rewrite (nextState_gameOver keys deltaTime prev g Hover). fold moved.
  rewrite drawFrame_cases.
  assert (E : forallb hasVertex (asteroids moved) = true).
  { subst moved. cbn [asteroids updateGameObjects steered].
    rewrite hasVertex_moved. exact Hv. }
  rewrite E. reflexivity.
Qed.

(** C2 (as amended).  From a state with [gameOver = true] a frame of the
    driver loop does not resolve collisions: the updater computes one
    tick of [updateGameObjects] on the previous state with its steered
    ship, draws it and draws no random number.  Whenever it returns a
    state, that state has the [score] and the [lives] of the previous
    one and [gameOver = true], no asteroid has been removed or
    regenerated and the ship has not been reset; the asteroids, the
    bullets and the ship have still been moved by the tick.  It does
    return a state whenever every asteroid has a vertex. *)
Theorem gameOver_frame_skips_resolver
    (keys : Keys) (deltaTime : R) (prev : GameState) (g : Rng) :
  gameOver prev = true ->
  let moved := updateGameObjects (steered keys deltaTime prev)
                                 CANVAS_WIDTH CANVAS_HEIGHT in
  runState (gameLoopStep keys deltaTime prev) g = (drawFrame moved, g)
  /\ (forall s' t, frame keys deltaTime prev g = Drawn s' t ->
      s' = moved
      /\ score s' = score prev /\ lives s' = lives prev /\ gameOver s' = true
      /\ asteroids s' = map (updateAsteroid CANVAS_WIDTH CANVAS_HEIGHT) (asteroids prev)
      /\ List.length (asteroids s') = List.length (asteroids prev)
      /\ ship s' = updateShip (steerShip keys deltaTime (ship prev))
                              CANVAS_WIDTH CANVAS_HEIGHT)
  /\ (forallb hasVertex (asteroids prev) = true ->
      exists t, frame keys deltaTime prev g = Drawn moved t).
Proof.
  intros Hover moved.
  assert (En : nextState keys deltaTime prev g = moved)
    by apply (nextState_gameOver keys deltaTime prev g Hover).
  split; [| split].
  - rewrite gameLoopStep_run, En. f_equal.
    unfold execState, updaterState. rewrite Hover. reflexivity.
  - intros s' t E.
    apply (proj1 (gameLoopStep_drawn keys deltaTime prev g)) in E.
    rewrite En in E. subst s'. subst moved.
    cbn [score lives gameOver asteroids ship updateGameObjects steered].
    rewrite length_map. repeat split; try reflexivity. exact Hover.
  - intros Hv. eexists.
    apply (frame_gameOver_drawn keys deltaTime prev g Hover Hv).
Qed.

(** A frame from [driftState], which is game over: it is drawn, and the
    state returned has the score and no life of [driftState]. *)
Lemma gameOver_frame_skips_resolver_witness :
  exists s' t,
    frame [] 1 driftState halves = Drawn s' t
    /\ score s' = score driftState /\ lives s' = lives driftState
    /\ gameOver s' = true.
Proof.
  destruct (gameOver_frame_skips_resolver [] 1 driftState halves eq_refl)
    as (_ & Hret & Hdrawn).
  destruct (Hdrawn eq_refl) as [t Ht].
  destruct (Hret _ _ Ht) as (_ & Hs & Hl & Hg & _).
  eexists. exists t. split; [exact Ht |]. split; [exact Hs |].
  split; [exact Hl | exact Hg].
Defined.

(** C2 (as stated) fails: in [driftState], where [gameOver = true], the
    asteroid at (10, 20) with velocity (0.5, 0) is at (10.5, 20) in the
    state the updater returns after one frame with no key held. *)
Lemma gameOver_frame_still_moves :
  gameOver driftState = true
  /\ map (fun a : Asteroid => position a) (asteroids driftState)
     = [{| x := 10; y := 20 |}]
  /\ exists s' t,
       frame [] 1 driftState halves = Drawn s' t
       /\ map (fun a : Asteroid => position a) (asteroids s')
          = [{| x := 10.5; y := 20 |}].
Proof.
  split; [reflexivity |]. split; [reflexivity |].
  eexists. eexists. split.
  - apply (frame_gameOver_drawn [] 1 driftState halves); reflexivity.
  - cbn [updateGameObjects steered asteroids driftState map].
    rewrite updateAsteroid_position.
    cbn [preWrap rock position velocity asteroid_obj x y].
    assert (Ex : wrapAxis (10 + 0.5) CANVAS_WIDTH = 10.5).
    { unfold CANVAS_WIDTH. apply (wrapAxis_eval _ _ _ 1); lra. }
    assert (Ey : wrapAxis (20 + 0) CANVAS_HEIGHT = 20).
    { unfold CANVAS_HEIGHT. apply (wrapAxis_eval _ _ _ 1); lra. }
    rewrite Ex, Ey. reflexivity.
Qed.

(** *** Frames of a session *)

Lemma run_tail (es : list Event) (s : GameState) (g : Rng) :
  unitRng g -> tailOf g (execState (run es s) g).
Proof.
  revert s g. induction es as [| e es IH]; intros s g Hg.
  - apply tailOf_refl.
  - unfold execState. rewrite run_cons.
    pose proof (handleEvent_tail e s g Hg) as Ht.
    apply (tailOf_trans g (execState (handleEvent e s) g)); [exact Ht |].
    apply IH. apply (tailOf_unit g); assumption.
Qed.

Lemma play_tail (es : list Event) (g : Rng) :
  unitRng g -> tailOf g (execState (play es) g).
Proof.
  intros Hg. unfold play, execState. cbn [runState bind Monad_state].
  pose proof (initialState_tail g Hg) as Ht. unfold execState in Ht.
  destruct (runState initialState g) as [s0 g0]. cbn [snd] in *.
  apply (tailOf_trans g g0); [exact Ht |].
  apply run_tail. apply (tailOf_unit g); assumption.
Qed.

Lemma play_hasVertex (es : list Event) (g : Rng) :
  unitRng g ->
  Forall (fun a => hasVertex a = true) (asteroids (evalState (play es) g)).
Proof.
  intros Hg.
  apply (play_invariant
           (fun s => Forall (fun a => hasVertex a = true) (asteroids s))
           (fun _ => True)); try assumption.
  - intros g0 Hg0. rewrite initialState_fields. cbn [asteroids].
    eapply Forall_impl; [| apply (refill_wellFormed INITIAL_ASTEROIDS g0 Hg0)].
    intros a (_ & _ & _ & Hn). unfold hasVertex.
    destruct (vertices a); [cbn in Hn; lia | reflexivity].
  - apply verticesOK_step.
  - apply Forall_forall. trivial.
Qed.

(** In a session no frame throws: after any events, with random draws
    in [[0, 1)], the updater of the next frame draws the state it
    computed and returns it; that state is the one [handleEvent] gives
    for the frame. *)
Lemma session_frames_are_drawn (es : list Event) (keys : Keys) (deltaTime : R)
    (g : Rng) :
  unitRng g ->
  let s := evalState (play es) g in
  let g' := execState (play es) g in
  let s' := evalState (handleEvent (Tick keys deltaTime) s) g' in
  frame keys deltaTime s g'
  = Drawn s' (ctx_clearRect 0 0 CANVAS_WIDTH CANVAS_HEIGHT
                :: traceOf (drawGame s')).
Proof.
  intros Hg s g' s'.
  assert (Hg' : unitRng g') by (apply (tailOf_unit g); [exact Hg | apply play_tail; exact Hg]).
  assert (Hv : Forall (fun a => hasVertex a = true) (asteroids s'))
    by (apply verticesOK_step; [exact Hg' | exact I | apply play_hasVertex; exact Hg]).
  unfold frame, evalState. rewrite gameLoopStep_run. cbn [fst].
  change (nextState keys deltaTime s g') with s'.
  rewrite drawFrame_cases.
  assert (E : forallb hasVertex (asteroids s') = true)
    by (apply forallb_forall; apply Forall_forall; exact Hv).
  rewrite E. reflexivity.
Qed.
